(** * Image-Synthesis: the synthesis client and the image intake

    A shallow embedding of [services/geminiService.ts] (the synthesis
    client, [synthesizeImage]) and of the [App] component (the image intake:
    [handleFileChange], [removeImage], [clearAllImages], [fileToBase64],
    [handleSubmit]), with the properties of the specification stated and
    proved over it.

    Conventions.
    - A JavaScript value of type [string | undefined] (or [| null]) is an
      [option string]; [None] is the absent value.
    - A promise is modelled by the way it settles ([Resolved] or [Rejected]);
      a function that has effects returns the list of effects it performed,
      in order, next to its result.
    - A JavaScript string is a [string] holding the UTF-8 encoding of its
      text.
    - Library and browser interfaces that the code calls but does not define
      (the remote client, [FileReader], [URL.createObjectURL]) are modelled
      from their published behaviour and are marked as such. *)

From Stdlib Require Import ZArith Lia Ascii String Strings.Byte.
From stdpp Require Import base option list strings pretty gmap.

Local Open Scope string_scope.
Local Open Scope list_scope.
Local Open Scope stdpp_scope.

(** ** JavaScript run-time notions *)

Module Js.

(** What a [throw] (or a rejected promise) carries.  [Error m] is
    [new Error(m)]; [TypeError m] is the engine's own error for reading a
    property of [undefined] or iterating over it; [ProgressEvent] is what a
    [FileReader] hands to [onerror]. *)
Inductive thrown :=
| Error (message : string)
| TypeError (message : string)
| ProgressEvent.

(** [err.message]: an [Error] has one, a [ProgressEvent] has none. *)
Definition message (e : thrown) : option string :=
  match e with
  | Error m | TypeError m => Some m
  | ProgressEvent => None
  end.

(** How a promise settles. *)
Inductive settled (A : Type) :=
| Resolved (a : A)
| Rejected (e : thrown).
Arguments Resolved {A} a.
Arguments Rejected {A} e.

(** Truthiness of a [string | undefined | null]: absent and the empty
    string are falsy. *)
Definition truthy (v : option string) : bool :=
  match v with
  | Some s => negb (String.eqb s "")
  | None => false
  end.

(** [`${v}`]: a template literal prints an absent value as [undefined]. *)
Definition interpolate (v : option string) : string :=
  match v with
  | Some s => s
  | None => "undefined"
  end.

(** White space as [String.prototype.trim] knows it, the WhiteSpace and
    LineTerminator productions of ECMAScript: U+0009 to U+000D, U+0020,
    U+00A0, U+1680, U+2000 to U+200A, U+2028, U+2029, U+202F, U+205F, U+3000
    and U+FEFF.  A [string] holds the UTF-8 encoding of the text, so a white
    space character is one, two or three bytes long. *)

(** TAB, LF, VT, FF, CR and SPACE. *)
Definition isWhiteSpace (c : ascii) : bool :=
  let n := nat_of_ascii c in
  (Nat.eqb n 9 || Nat.eqb n 10 || Nat.eqb n 11 || Nat.eqb n 12
   || Nat.eqb n 13 || Nat.eqb n 32)%bool.

(** U+00A0, encoded [C2 A0]. *)
Definition isWhiteSpace2 (c1 c2 : ascii) : bool :=
  (Nat.eqb (nat_of_ascii c1) 194 && Nat.eqb (nat_of_ascii c2) 160)%bool.

(** U+1680 [E1 9A 80]; U+2000 to U+200A [E2 80 80] to [E2 80 8A];
    U+2028, U+2029, U+202F [E2 80 A8], [E2 80 A9], [E2 80 AF];
    U+205F [E2 81 9F]; U+3000 [E3 80 80]; U+FEFF [EF BB BF]. *)
Definition isWhiteSpace3 (c1 c2 c3 : ascii) : bool :=
  let n1 := nat_of_ascii c1 in
  let n2 := nat_of_ascii c2 in
  let n3 := nat_of_ascii c3 in
  (Nat.eqb n1 225 && Nat.eqb n2 154 && Nat.eqb n3 128
   || Nat.eqb n1 226 && Nat.eqb n2 128
      && (Nat.leb 128 n3 && Nat.leb n3 138
          || Nat.eqb n3 168 || Nat.eqb n3 169 || Nat.eqb n3 175)
   || Nat.eqb n1 226 && Nat.eqb n2 129 && Nat.eqb n3 159
   || Nat.eqb n1 227 && Nat.eqb n2 128 && Nat.eqb n3 128
   || Nat.eqb n1 239 && Nat.eqb n2 187 && Nat.eqb n3 191)%bool.

(** The number of bytes of the white space character that [s] starts with;
    0 when it starts with none. *)
Definition whiteSpaceBytes (s : string) : nat :=
  match s with
  | String c1 rest1 =>
      if isWhiteSpace c1 then 1
      else
        match rest1 with
        | String c2 rest2 =>
            if isWhiteSpace2 c1 c2 then 2
            else
              match rest2 with
              | String c3 _ => if isWhiteSpace3 c1 c2 c3 then 3 else 0
              | EmptyString => 0
              end
        | EmptyString => 0
        end
  | EmptyString => 0
  end.

(** [trimStart] drops the white space characters [s] starts with. *)
Fixpoint trimStart (s : string) : string :=
  match s with
  | String c1 rest1 =>
      if isWhiteSpace c1 then trimStart rest1
      else
        match rest1 with
        | String c2 rest2 =>
            if isWhiteSpace2 c1 c2 then trimStart rest2
            else
              match rest2 with
              | String c3 rest3 =>
                  if isWhiteSpace3 c1 c2 c3 then trimStart rest3 else s
              | EmptyString => s
              end
        | EmptyString => s
        end
  | EmptyString => EmptyString
  end.

(** [trimEnd] drops the white space characters [s] ends with.  Going from
    the left: when [s] starts with a white space character of [n] bytes and
    nothing but the other [n - 1] bytes of that character is kept of what
    follows its first byte, the character is dropped; otherwise the first
    byte is kept. *)
Fixpoint trimEnd (s : string) : string :=
  match s with
  | String c1 rest1 =>
      let kept := trimEnd rest1 in
      let n := whiteSpaceBytes s in
      if (negb (Nat.eqb n 0) && Nat.eqb (String.length kept) (n - 1))%bool
      then EmptyString
      else String c1 kept
  | EmptyString => EmptyString
  end.

(** A text made of white space characters only. *)
Inductive blank : string → Prop :=
| blank_empty : blank EmptyString
| blank_1 c1 s : isWhiteSpace c1 = true → blank s → blank (String c1 s)
| blank_2 c1 c2 s :
    isWhiteSpace2 c1 c2 = true → blank s → blank (String c1 (String c2 s))
| blank_3 c1 c2 c3 s :
    isWhiteSpace3 c1 c2 c3 = true → blank s →
    blank (String c1 (String c2 (String c3 s))).

(** [s.trim()] *)
Definition trim (s : string) : string := trimEnd (trimStart s).

(** Whether the character [c] occurs in [s]. *)
Fixpoint occurs (c : ascii) (s : string) : bool :=
  match s with
  | EmptyString => false
  | String c' s' => (Ascii.eqb c' c || occurs c s')%bool
  end.

(** [s.split(sep)] for a one-character separator: the pieces between the
    occurrences of [sep]; always at least one piece. *)
Fixpoint split (sep : ascii) (s : string) : list string :=
  match s with
  | EmptyString => [EmptyString]
  | String c s' =>
      if Ascii.eqb c sep then EmptyString :: split sep s'
      else
        match split sep s' with
        | piece :: pieces => String c piece :: pieces
        | [] => [String c EmptyString]
        end
  end.

End Js.

(** ** services/geminiService.ts

    The module first reads [API_KEY] and constructs the client [ai]; the
    function [synthesizeImage] below is given that client's
    [models.generateContent] as [ai]. *)

Module GeminiService.
Import Js.

(** *** The shapes of [@google/genai] that the service reads and writes.
    Every field is optional in the library's declarations. *)

Module Blob_.
Record t := mk { mimeType : option string; data : option string }.
End Blob_.

Module Part.
Record t := mk { inlineData : option Blob_.t; text : option string }.
End Part.

Module Content.
Record t := mk { parts : option (list Part.t) }.
End Content.

Module Candidate.
Record t := mk { content : option Content.t }.
End Candidate.

Module GenerateContentResponse.
Record t := mk { candidates : option (list Candidate.t) }.
End GenerateContentResponse.

Inductive Modality := MODALITY_UNSPECIFIED | TEXT | IMAGE | AUDIO.

Module GenerateContentParameters.
Record t := mk {
  model : string;
  contents : Content.t;
  responseModalities : list Modality
}.
End GenerateContentParameters.

(** [ai.models.generateContent]: the awaited remote call either throws or
    yields a response. *)
Definition Models : Type :=
  GenerateContentParameters.t -> settled GenerateContentResponse.t.

(** *** The service's own interfaces *)

Module SynthesisResult.
Record t := mk { imageUrl : option string; text : option string }.
End SynthesisResult.

(** [data] is declared [string]; the caller computes it with
    [split(',')[1]], which is [undefined] when there is no second piece. *)
Module ImagePart.
Record t := mk { mimeType : string; data : option string }.
End ImagePart.

(** What the service does to the outside world. *)
Inductive effect :=
| GenerateContent (request : GenerateContentParameters.t)
| ConsoleError (label : string) (cause : thrown).

Definition noContentMessage : string :=
  "API returned no content. The prompt might have been blocked.".

Definition failureMessage : string :=
  "Failed to synthesize image. Please check the console for more details.".

(** [images.map(image => ({ inlineData: {...} }))] *)
Definition imagePart (image : ImagePart.t) : Part.t :=
  Part.mk
    (Some (Blob_.mk (Some (ImagePart.mimeType image)) (ImagePart.data image)))
    None.

Definition textPart (prompt : string) : Part.t :=
  Part.mk None (Some prompt).

Definition request (prompt : string) (images : list ImagePart.t)
  : GenerateContentParameters.t :=
  GenerateContentParameters.mk
    "gemini-2.5-flash-image-preview"
    (Content.mk (Some (map imagePart images ++ [textPart prompt])))
    [IMAGE; TEXT].

(** [part.inlineData && part.inlineData.data] *)
Definition hasInlineData (part : Part.t) : bool :=
  match Part.inlineData part with
  | Some blob => truthy (Blob_.data blob)
  | None => false
  end.

(** The body of the [for (const part of ...)] loop, as a function of the
    [result] object it assigns to. *)
Definition visit (result : SynthesisResult.t) (part : Part.t)
  : SynthesisResult.t :=
  if hasInlineData part then
    let mimeType := Part.inlineData part ≫= Blob_.mimeType in
    let base64Data := Part.inlineData part ≫= Blob_.data in
    SynthesisResult.mk
      (Some ("data:" +:+ interpolate mimeType +:+ ";base64,"
               +:+ interpolate base64Data))
      (SynthesisResult.text result)
  else if truthy (Part.text part) then
    SynthesisResult.mk (SynthesisResult.imageUrl result) (Part.text part)
  else result.

Definition emptyResult : SynthesisResult.t := SynthesisResult.mk None None.

(** Lines 52-68: the result after the response has been read.  Reading
    [candidate.content.parts] of a candidate without [content], and
    iterating over absent [parts], throw a [TypeError] (with the engine's
    wording, V8's here). *)
Definition extract (response : GenerateContentResponse.t)
  : thrown + SynthesisResult.t :=
  match GenerateContentResponse.candidates response with
  | Some (candidate :: _) =>
      match Candidate.content candidate with
      | None =>
          inl (TypeError "Cannot read properties of undefined (reading 'parts')")
      | Some content =>
          match Content.parts content with
          | None => inl (TypeError "undefined is not iterable")
          | Some parts => inr (fold_left visit parts emptyResult)
          end
      end
  | Some [] | None => inr emptyResult
  end.

(** Lines 70-74. *)
Definition checked (result : SynthesisResult.t) : thrown + SynthesisResult.t :=
  if (negb (truthy (SynthesisResult.imageUrl result))
      && negb (truthy (SynthesisResult.text result)))%bool
  then inl (Error noContentMessage)
  else inr result.

(** The [try] block: the effects performed and how the block ends. *)
Definition tryBlock (ai : Models) (prompt : string) (images : list ImagePart.t)
  : list effect * (thrown + SynthesisResult.t) :=
  let req := request prompt images in
  ([GenerateContent req],
   match ai req with
   | Rejected e => inl e
   | Resolved response =>
       match extract response with
       | inl e => inl e
       | inr result => checked result
       end
   end).

(** [synthesizeImage]: whatever the [try] block throws is caught, logged
    and replaced by one fixed error. *)
Definition synthesizeImage (ai : Models) (prompt : string)
    (images : list ImagePart.t)
  : list effect * settled SynthesisResult.t :=
  match tryBlock ai prompt images with
  | (effects, inr result) => (effects, Resolved result)
  | (effects, inl error) =>
      (effects ++ [ConsoleError "Error calling Gemini API:" error],
       Rejected (Error failureMessage))
  end.

(** *** Notions used to state the properties *)

(** The parts of the first candidate, when the response has them. *)
Definition firstParts (response : GenerateContentResponse.t)
  : option (list Part.t) :=
  match GenerateContentResponse.candidates response with
  | Some (candidate :: _) => Candidate.content candidate ≫= Content.parts
  | Some [] | None => None
  end.

(** A part the loop takes something from. *)
Definition usable (part : Part.t) : bool :=
  (hasInlineData part || truthy (Part.text part))%bool.

(** A part that sets the text: it has text and the first branch of the
    loop body does not take it. *)
Definition textual (part : Part.t) : bool :=
  (negb (hasInlineData part) && truthy (Part.text part))%bool.

(** A response with nothing to take: no candidates at all, or a first
    candidate none of whose parts is usable. *)
Inductive noUsableContent : GenerateContentResponse.t → Prop :=
| candidates_absent :
    noUsableContent (GenerateContentResponse.mk None)
| candidates_empty :
    noUsableContent (GenerateContentResponse.mk (Some []))
| parts_unusable parts others :
    Forall (λ part, usable part = false) parts →
    noUsableContent
      (GenerateContentResponse.mk
         (Some (Candidate.mk (Some (Content.mk (Some parts))) :: others))).

(** A response whose first candidate has no list of parts to iterate
    over: no [content], or a [content] without [parts]. *)
Inductive partsMissing : GenerateContentResponse.t → Prop :=
| content_absent others :
    partsMissing
      (GenerateContentResponse.mk (Some (Candidate.mk None :: others)))
| parts_absent others :
    partsMissing
      (GenerateContentResponse.mk
         (Some (Candidate.mk (Some (Content.mk None)) :: others))).

(** A result with something in it: an image URL or a text that is not
    empty. *)
Definition populated (result : SynthesisResult.t) : Prop :=
  truthy (SynthesisResult.imageUrl result) = true
  ∨ truthy (SynthesisResult.text result) = true.

(** What a failed call leaves behind: the request, then the cause on the
    console. *)
Definition logged (prompt : string) (images : list ImagePart.t)
    (cause : thrown) : list effect :=
  [GenerateContent (request prompt images);
   ConsoleError "Error calling Gemini API:" cause].

(** The requests sent, among the effects. *)
Definition requests (effects : list effect)
  : list GenerateContentParameters.t :=
  omap (λ e, match e with GenerateContent r => Some r | _ => None end) effects.

End GeminiService.

(** ** Browser interfaces used by the component *)

(** The base64 transport encoding of RFC 4648 (with padding), which
    [FileReader.readAsDataURL] applies to the bytes it has read.

    Modelled from the spec: the encoder is the browser's and not part of the
    repository; it is "the standard base64-style transport encoding". *)
Module Base64.

Definition alphabet : string :=
  "ABCDEFGHIJKLMNOPQRSTUVWXYZabcdefghijklmnopqrstuvwxyz0123456789+/".

Definition pad : ascii := "="%char.

(** The character of a 6-bit group. *)
Definition digit (n : Z) : ascii :=
  match String.get (Z.to_nat n) alphabet with
  | Some c => c
  | None => pad
  end.

Fixpoint indexOf (c : ascii) (s : string) : option Z :=
  match s with
  | EmptyString => None
  | String c' s' =>
      if Ascii.eqb c c' then Some 0%Z else Z.succ <$> indexOf c s'
  end.

(** The 6-bit group of a character, if it is one of the alphabet. *)
Definition value (c : ascii) : option Z := indexOf c alphabet.

Definition octet (b : byte) : Z := Z.of_N (Byte.to_N b).

Definition toByte (n : Z) : option byte := Byte.of_N (Z.to_N n).

Definition str (cs : list ascii) : string := string_of_list_ascii cs.

(** Three octets are one 24-bit group, read as four 6-bit groups. *)
Definition encode3 (a b c : Z) : list ascii :=
  let n := (a * 65536 + b * 256 + c)%Z in
  [digit (n / 262144); digit (n / 4096 mod 64);
   digit (n / 64 mod 64); digit (n mod 64)].

(** Two octets left: 16 bits, padded with two zero bits, and one [=]. *)
Definition encode2 (a b : Z) : list ascii :=
  let n := ((a * 256 + b) * 4)%Z in
  [digit (n / 4096); digit (n / 64 mod 64); digit (n mod 64); pad].

(** One octet left: 8 bits, padded with four zero bits, and two [=]. *)
Definition encode1 (a : Z) : list ascii :=
  let n := (a * 16)%Z in
  [digit (n / 64); digit (n mod 64); pad; pad].

Fixpoint encode (bytes : list byte) : string :=
  match bytes with
  | a :: b :: c :: rest =>
      str (encode3 (octet a) (octet b) (octet c)) +:+ encode rest
  | [a; b] => str (encode2 (octet a) (octet b))
  | [a] => str (encode1 (octet a))
  | [] => EmptyString
  end.

Definition decode3 (c1 c2 c3 c4 : ascii) : option (list byte) :=
  s1 ← value c1; s2 ← value c2; s3 ← value c3; s4 ← value c4;
  let n := (s1 * 262144 + s2 * 4096 + s3 * 64 + s4)%Z in
  a ← toByte (n / 65536); b ← toByte (n / 256 mod 256);
  c ← toByte (n mod 256);
  Some [a; b; c].

Definition decode2 (c1 c2 c3 : ascii) : option (list byte) :=
  s1 ← value c1; s2 ← value c2; s3 ← value c3;
  let n := (s1 * 4096 + s2 * 64 + s3)%Z in
  a ← toByte (n / 1024); b ← toByte (n / 4 mod 256);
  Some [a; b].

Definition decode1 (c1 c2 : ascii) : option (list byte) :=
  s1 ← value c1; s2 ← value c2;
  let n := (s1 * 64 + s2)%Z in
  a ← toByte (n / 16);
  Some [a].

(** Decoding reads four characters at a time; padding may only end the
    text; anything else is refused. *)
Fixpoint decode (s : string) : option (list byte) :=
  match s with
  | EmptyString => Some []
  | String c1 (String c2 (String c3 (String c4 rest))) =>
      if Ascii.eqb c4 pad then
        match rest with
        | EmptyString =>
            if Ascii.eqb c3 pad then decode1 c1 c2 else decode2 c1 c2 c3
        | _ => None
        end
      else
        front ← decode3 c1 c2 c3 c4;
        back ← decode rest;
        Some (front ++ back)
  | _ => None
  end.

End Base64.

Module Browser.
Import Js.

(** A [File]: its declared media type ([file.type]) and what reading it
    gives, the bytes or a failure. *)
Inductive reading :=
| Readable (bytes : list byte)
| Unreadable.

Module File.
Record t := mk { name : string; type : string; content : reading }.
End File.

(** [FileReader.readAsDataURL]: [Some result] when [onload] fires, [None]
    when [onerror] does.

    Modelled from the spec: the reader is the browser's.  Its result is
    the data URL of RFC 2397, media type first (a file without a declared
    type is announced as [application/octet-stream]), then the [;base64,]
    marker, then the encoded bytes. *)
Definition readAsDataURL (file : File.t) : option string :=
  match File.content file with
  | Readable bytes =>
      let mediaType :=
        if String.eqb (File.type file) "" then "application/octet-stream"
        else File.type file in
      Some ("data:" +:+ mediaType +:+ ";base64," +:+ Base64.encode bytes)
  | Unreadable => None
  end.

(** The registry of object URLs of the page: how many were minted, and
    which are live (created and not revoked).

    Modelled from the spec: [URL.createObjectURL] gives "a freshly minted
    preview reference" at every call; the n-th one is written
    [blob:n] here. *)
Module URL.
Record registry := mk { minted : nat; live : gset string }.

Definition objectURL (n : nat) : string := "blob:" +:+ pretty n.

Definition createObjectURL (r : registry) : string * registry :=
  let url := objectURL (minted r) in
  (url, mk (S (minted r)) ({[ url ]} ∪ live r)).

(** Revoking a URL that is not live does nothing. *)
Definition revokeObjectURL (url : string) (r : registry) : registry :=
  mk (minted r) (live r ∖ {[ url ]}).

Definition empty : registry := mk 0 ∅.
End URL.

End Browser.

(** ** The [App] component *)

Module App.
Import Js Browser.

Module ImageFile.
Record t := mk { file : File.t; preview : string }.
End ImageFile.

(** The six [useState] cells. *)
Record state := mkState {
  imageFiles : list ImageFile.t;
  prompt : string;
  generatedImage : option string;
  generatedText : option string;
  isLoading : bool;
  error : option string
}.

Definition setImageFiles (v : list ImageFile.t) (s : state) : state :=
  mkState v (prompt s) (generatedImage s) (generatedText s) (isLoading s) (error s).
Definition setPrompt (v : string) (s : state) : state :=
  mkState (imageFiles s) v (generatedImage s) (generatedText s) (isLoading s) (error s).
Definition setGeneratedImage (v : option string) (s : state) : state :=
  mkState (imageFiles s) (prompt s) v (generatedText s) (isLoading s) (error s).
Definition setGeneratedText (v : option string) (s : state) : state :=
  mkState (imageFiles s) (prompt s) (generatedImage s) v (isLoading s) (error s).
Definition setIsLoading (v : bool) (s : state) : state :=
  mkState (imageFiles s) (prompt s) (generatedImage s) (generatedText s) v (error s).
Definition setError (v : option string) (s : state) : state :=
  mkState (imageFiles s) (prompt s) (generatedImage s) (generatedText s) (isLoading s) v.

(** The component's state together with the page's object URLs. *)
Record world := mkWorld { ui : state; urls : URL.registry }.

Definition initial : world :=
  mkWorld (mkState [] "" None None false None) URL.empty.

Inductive effect :=
| CreateObjectURL (url : string)
| RevokeObjectURL (url : string)
| Service (e : GeminiService.effect)
| ConsoleError (err : thrown).

(** How an event handler ends. *)
Inductive completion :=
| Normal
| Throws (e : thrown).

(** [files.map(file => ({ file, preview: URL.createObjectURL(file) }))] *)
Fixpoint filePreviews (files : list File.t) (r : URL.registry)
  : list ImageFile.t * URL.registry :=
  match files with
  | [] => ([], r)
  | file :: rest =>
      let '(url, r1) := URL.createObjectURL r in
      let '(entries, r2) := filePreviews rest r1 in
      (ImageFile.mk file url :: entries, r2)
  end.

(** [handleFileChange]; [files] is [event.target.files], which may be
    null. *)
Definition handleFileChange (files : option (list File.t)) (w : world)
  : list effect * world :=
  match files with
  | Some files =>
      let '(entries, r) := filePreviews files (urls w) in
      (map (λ e, CreateObjectURL (ImageFile.preview e)) entries,
       mkWorld (setImageFiles (imageFiles (ui w) ++ entries) (ui w)) r)
  | None => ([], w)
  end.

(** [arr[index]] for an integer [index]: absent outside the array. *)
Definition at_ {A} (arr : list A) (index : Z) : option A :=
  if (index <? 0)%Z then None else arr !! Z.to_nat index.

(** [removeImage].  Reading [.preview] of an absent element throws before
    anything else is done. *)
Definition removeImage (index : Z) (w : world)
  : list effect * world * completion :=
  let newImageFiles := imageFiles (ui w) in
  match at_ newImageFiles index with
  | None =>
      ([], w,
       Throws (TypeError "Cannot read properties of undefined (reading 'preview')"))
  | Some entry =>
      let r := URL.revokeObjectURL (ImageFile.preview entry) (urls w) in
      let newImageFiles := delete (Z.to_nat index) newImageFiles in
      ([RevokeObjectURL (ImageFile.preview entry)],
       mkWorld (setImageFiles newImageFiles (ui w)) r,
       Normal)
  end.

(** [clearAllImages] *)
Definition clearAllImages (w : world) : list effect * world :=
  let previews := map ImageFile.preview (imageFiles (ui w)) in
  (map RevokeObjectURL previews,
   mkWorld (setImageFiles [] (ui w))
           (fold_left (λ r url, URL.revokeObjectURL url r) previews (urls w))).

(** [fileToBase64]: the promise resolves with the second piece of the
    reader's result split at commas, or rejects with the reader's error
    event. *)
Definition fileToBase64 (file : File.t) : settled (option string) :=
  match readAsDataURL file with
  | Some result => Resolved (split "," result !! 1)
  | None => Rejected ProgressEvent
  end.

(** The callback of [imageFiles.map(async (imgFile) => ...)]. *)
Definition encodeEntry (imgFile : ImageFile.t) : settled GeminiService.ImagePart.t :=
  match fileToBase64 (ImageFile.file imgFile) with
  | Resolved base64Data =>
      Resolved (GeminiService.ImagePart.mk (File.type (ImageFile.file imgFile)) base64Data)
  | Rejected e => Rejected e
  end.

(** [Promise.all]: all values in order, or the rejection of the first
    promise (in list order) that rejects. *)
Fixpoint promiseAll {A} (ps : list (settled A)) : settled (list A) :=
  match ps with
  | [] => Resolved []
  | Resolved a :: rest =>
      match promiseAll rest with
      | Resolved values => Resolved (a :: values)
      | Rejected e => Rejected e
      end
  | Rejected e :: _ => Rejected e
  end.

Definition validationMessage : string :=
  "이미지와 프롬프트를 모두 입력해주세요.".

Definition errorMessage (err : thrown) : string :=
  "이미지 생성 중 오류가 발생했습니다: " +:+ interpolate (message err).

(** [handleSubmit] *)
Definition handleSubmit (ai : GeminiService.Models) (s : state) : list effect * state :=
  if (Nat.eqb (length (imageFiles s)) 0
      || negb (truthy (Some (trim (prompt s)))))%bool
  then ([], setError (Some validationMessage) s)
  else
    let s1 :=
      setGeneratedText None
        (setGeneratedImage None (setError None (setIsLoading true s))) in
    match promiseAll (map encodeEntry (imageFiles s)) with
    | Rejected err =>
        ([ConsoleError err],
         setIsLoading false (setError (Some (errorMessage err)) s1))
    | Resolved imageParts =>
        match GeminiService.synthesizeImage ai (prompt s) imageParts with
        | (effects, Resolved result) =>
            (map Service effects,
             setIsLoading false
               (setGeneratedText (GeminiService.SynthesisResult.text result)
                  (setGeneratedImage (GeminiService.SynthesisResult.imageUrl result) s1)))
        | (effects, Rejected err) =>
            (map Service effects ++ [ConsoleError err],
             setIsLoading false (setError (Some (errorMessage err)) s1))
        end
    end.

(** What the user can do to the page. *)
Inductive action :=
| FileChange (files : option (list File.t))
| RemoveImage (index : Z)
| ClearAllImages
| PromptChange (value : string)
| Submit (ai : GeminiService.Models).

Definition perform (a : action) (w : world) : list effect * world :=
  match a with
  | FileChange files => handleFileChange files w
  | RemoveImage index => let '(effects, w', _) := removeImage index w in (effects, w')
  | ClearAllImages => clearAllImages w
  | PromptChange value => ([], mkWorld (setPrompt value (ui w)) (urls w))
  | Submit ai =>
      let '(effects, s) := handleSubmit ai (ui w) in (effects, mkWorld s (urls w))
  end.

(** The effects and the final world of a sequence of actions. *)
Fixpoint run (actions : list action) (w : world) : list effect * world :=
  match actions with
  | [] => ([], w)
  | a :: rest =>
      let '(effects1, w1) := perform a w in
      let '(effects2, w2) := run rest w1 in
      (effects1 ++ effects2, w2)
  end.

(** The worlds the page can be in. *)
Definition reachable (w : world) : Prop :=
  ∃ actions, (run actions initial).2 = w.

(** The object URLs created, and those revoked, among the effects. *)
Definition created (effects : list effect) : list string :=
  omap (λ e, match e with CreateObjectURL url => Some url | _ => None end)
       effects.

Definition revoked (effects : list effect) : list string :=
  omap (λ e, match e with RevokeObjectURL url => Some url | _ => None end)
       effects.

(** The lifetime invariant of the intake: the previews of the entries are
    pairwise distinct, they are exactly the live object URLs, and each of
    them was minted earlier. *)
Definition previews (w : world) : list string :=
  map ImageFile.preview (imageFiles (ui w)).

Record consistent (w : world) : Prop := {
  previews_distinct : NoDup (previews w);
  previews_live : ∀ url, url ∈ URL.live (urls w) ↔ url ∈ previews w;
  previews_minted :
    ∀ url, url ∈ previews w →
      ∃ n, n < URL.minted (urls w) ∧ url = URL.objectURL n
}.

(** What a list of effects may do to the object URLs, from registry [r] to
    registry [r']: it creates only URLs not minted before, each once; it
    revokes each URL at most once, and only one that was live at the start or
    that it created; and the live URLs at the end are those live at the
    start or created, less the revoked ones. *)
Definition orderly (r : URL.registry) (effects : list effect)
    (r' : URL.registry) : Prop :=
  (∀ url, url ∈ created effects →
     ∃ n : nat, (URL.minted r ≤ n < URL.minted r')%nat ∧ url = URL.objectURL n)
  ∧ NoDup (created effects)
  ∧ NoDup (revoked effects)
  ∧ (∀ url, url ∈ revoked effects →
       url ∈ URL.live r ∨ url ∈ created effects)
  ∧ (∀ url, url ∈ URL.live r'
            ↔ (url ∈ URL.live r ∨ url ∈ created effects)
              ∧ url ∉ revoked effects)
  ∧ (URL.minted r ≤ URL.minted r')%nat.

(** *** What the component renders, as far as it decides what the user
    can do and see (the JSX of lines 115-183). *)

(** [disabled={isLoading || imageFiles.length === 0 || !prompt.trim()}] of
    the submit button. *)
Definition submitDisabled (s : state) : bool :=
  (isLoading s || Nat.eqb (length (imageFiles s)) 0
   || negb (truthy (Some (trim (prompt s)))))%bool.

(** [{error && <div ...>{error}</div>}] *)
Definition showsError (s : state) : bool := truthy (error s).

(** [{(generatedImage || generatedText) && !isLoading && (...)}] *)
Definition showsResult (s : state) : bool :=
  ((truthy (generatedImage s) || truthy (generatedText s))
   && negb (isLoading s))%bool.

(** The indices the remove buttons pass to [removeImage]: under
    [{imageFiles.length > 0 && (...)}], one button per element of
    [imageFiles.map((imgFile, index) => ...)], with that [index]. *)
Definition removeButtons (s : state) : list Z :=
  if Nat.ltb 0 (length (imageFiles s))
  then map Z.of_nat (seq 0 (length (imageFiles s)))
  else [].

(** The requests the service sent, among the effects of the component. *)
Definition sent (effects : list effect)
  : list GeminiService.GenerateContentParameters.t :=
  omap (λ e, match e with
             | Service (GeminiService.GenerateContent r) => Some r
             | _ => None
             end) effects.

End App.

(** ** Concrete inputs, used to run the definitions *)

Module Samples.
Import Js GeminiService Browser.

Definition png : Part.t :=
  Part.mk (Some (Blob_.mk (Some "image/png") (Some "AAAA"))) None.
Definition jpeg : Part.t :=
  Part.mk (Some (Blob_.mk (Some "image/jpeg") (Some "BBBB"))) None.
Definition first : Part.t := Part.mk None (Some "first").
Definition second : Part.t := Part.mk None (Some "second").
Definition captioned : Part.t :=
  Part.mk (Some (Blob_.mk (Some "image/png") (Some "AAAA"))) (Some "caption").

Definition respond (parts : list Part.t) : GenerateContentResponse.t :=
  GenerateContentResponse.mk
    (Some [Candidate.mk (Some (Content.mk (Some parts)))]).

(** A remote that answers every request with the same parts. *)
Definition answering (parts : list Part.t) : Models :=
  λ _, Resolved (respond parts).

(** A remote that answers with an empty list of candidates. *)
Definition blocked : Models :=
  λ _, Resolved (GenerateContentResponse.mk (Some [])).

(** A remote whose call fails. *)
Definition offline : Models := λ _, Rejected (Error "fetch failed").

Definition cat : File.t :=
  File.mk "cat.png" "image/png" (Readable (list_byte_of_string "Many")).
Definition hat : File.t :=
  File.mk "hat.jpg" "image/jpeg" (Readable (list_byte_of_string "hands")).
Definition torn : File.t := File.mk "torn.png" "image/png" Unreadable.

(** A prompt of two white space characters beyond ASCII: U+00A0, then
    U+3000. *)
Definition wideBlank : string :=
  String "194" (String "160" (String "227" (String "128" (String "128" "")))).

(** A part with inline data and no media type. *)
Definition untyped : Part.t :=
  Part.mk (Some (Blob_.mk None (Some "CCCC"))) None.

End Samples.

(** * White space: what [trim] leaves empty *)

Section WhiteSpace.
Import Js.

Lemma isWhiteSpace2_lead c1 c2 :
  isWhiteSpace2 c1 c2 = true → isWhiteSpace c1 = false.
Proof.
  unfold isWhiteSpace2, isWhiteSpace.
  rewrite andb_true_iff, !Nat.eqb_eq. intros [-> _]. reflexivity.
Qed.

Lemma isWhiteSpace3_lead c1 c2 c3 :
  isWhiteSpace3 c1 c2 c3 = true →
  isWhiteSpace c1 = false ∧ isWhiteSpace2 c1 c2 = false.
Proof.
  unfold isWhiteSpace3, isWhiteSpace2, isWhiteSpace.
  generalize (nat_of_ascii c1) (nat_of_ascii c2) (nat_of_ascii c3).
  intros n1 n2 n3 H.
  assert (Hlead : n1 = 225 ∨ n1 = 226 ∨ n1 = 227 ∨ n1 = 239).
  { rewrite !orb_true_iff, !andb_true_iff, !Nat.eqb_eq in H. lia. }
  destruct Hlead as [-> | [-> | [-> | ->]]]; by split.
Qed.

(** A blank text is trimmed to nothing from the left. *)
Lemma trimStart_blank s : blank s → trimStart s = "".
Proof.
  induction 1 as [|c1 s H1 _ IH|c1 c2 s H2 _ IH|c1 c2 c3 s H3 _ IH].
  - reflexivity.
  - simpl. by rewrite H1.
  - simpl. by rewrite (isWhiteSpace2_lead _ _ H2), H2.
  - destruct (isWhiteSpace3_lead _ _ _ H3) as [H1 H2].
    simpl. by rewrite H1, H2, H3.
Qed.

(** What [trimStart] leaves does not start with white space; when it
    leaves nothing, the text was blank. *)
Lemma trimStart_spec (n : nat) s :
  (String.length s ≤ n)%nat →
  whiteSpaceBytes (trimStart s) = 0 ∧ (trimStart s = "" → blank s).
Proof.
  revert s. induction n as [|n IH]; intros s Hn.
  { destruct s; [|simpl in Hn; lia]. split; [reflexivity|constructor]. }
  destruct s as [|c1 [|c2 [|c3 rest3]]]; simpl in Hn.
  - split; [reflexivity|constructor].
  - simpl. destruct (isWhiteSpace c1) eqn:H1.
    + split; [reflexivity|]. intros _. by repeat constructor.
    + split; [simpl; by rewrite H1|discriminate].
  - simpl. destruct (isWhiteSpace c1) eqn:H1.
    + destruct (IH (String c2 "")) as [Hstart Hblank]; [simpl; lia|].
      split; [exact Hstart|]. intros H. by apply blank_1, Hblank.
    + destruct (isWhiteSpace2 c1 c2) eqn:H2.
      * split; [reflexivity|]. intros _. by repeat constructor.
      * split; [simpl; by rewrite H1, H2|discriminate].
  - simpl. destruct (isWhiteSpace c1) eqn:H1.
    + destruct (IH (String c2 (String c3 rest3))) as [Hstart Hblank]; [simpl; lia|].
      split; [exact Hstart|]. intros H. by apply blank_1, Hblank.
    + destruct (isWhiteSpace2 c1 c2) eqn:H2.
      * destruct (IH (String c3 rest3)) as [Hstart Hblank]; [simpl; lia|].
        split; [exact Hstart|]. intros H. by apply blank_2, Hblank.
      * destruct (isWhiteSpace3 c1 c2 c3) eqn:H3.
        -- destruct (IH rest3) as [Hstart Hblank]; [lia|].
           split; [exact Hstart|]. intros H. by apply blank_3, Hblank.
        -- split; [simpl; by rewrite H1, H2, H3|discriminate].
Qed.

Lemma trimEnd_kept s : whiteSpaceBytes s = 0 → trimEnd s = "" → s = "".
Proof.
  destruct s as [|c1 rest1]; [done|].
  intros Hnone. cbn [trimEnd]. rewrite Hnone. discriminate.
Qed.

(** The prompts that [!prompt.trim()] takes for blank are the texts made
    of white space characters only. *)
Lemma trim_empty_iff_blank s : trim s = "" ↔ blank s.
Proof.
  unfold trim. destruct (trimStart_spec (String.length s) s (Nat.le_refl _))
    as [Hstart Hblank].
  split.
  - intros H. by apply Hblank, trimEnd_kept.
  - intros H. by rewrite (trimStart_blank _ H).
Qed.

End WhiteSpace.

(** * The synthesis client: what [synthesizeImage] sends, takes and reports *)

Section SynthesisClient.
Import Js GeminiService.

Implicit Types (ai : Models) (prompt : string) (images : list ImagePart.t).
Implicit Types (parts front back : list Part.t) (part : Part.t).
Implicit Types (result : SynthesisResult.t) (response : GenerateContentResponse.t).

Lemma truthy_Some s : truthy (Some s) = true ↔ s ≠ "".
Proof.
  unfold truthy. rewrite negb_true_iff. split.
  - intros H ->. discriminate.
  - intros H. apply String.eqb_neq. exact H.
Qed.

(** A data URL is never the empty string. *)
Lemma dataURL_truthy m d :
  truthy (Some ("data:" +:+ m +:+ ";base64," +:+ d)) = true.
Proof. reflexivity. Qed.

(** *** The loop *)

Lemma visit_image part result :
  hasInlineData part = true →
  visit result part =
    SynthesisResult.mk
      (Some ("data:" +:+ interpolate (Part.inlineData part ≫= Blob_.mimeType)
               +:+ ";base64,"
               +:+ interpolate (Part.inlineData part ≫= Blob_.data)))
      (SynthesisResult.text result).
Proof. intros H. unfold visit. by rewrite H. Qed.

Lemma visit_text part result :
  textual part = true →
  visit result part =
    SynthesisResult.mk (SynthesisResult.imageUrl result) (Part.text part).
Proof.
  unfold textual. rewrite andb_true_iff, negb_true_iff. intros [H1 H2].
  unfold visit. by rewrite H1, H2.
Qed.

Lemma visit_unusable part result :
  usable part = false → visit result part = result.
Proof.
  unfold usable. rewrite orb_false_iff. intros [H1 H2].
  unfold visit. by rewrite H1, H2.
Qed.

(** Parts without inline data leave the image as it is. *)
Lemma fold_visit_keeps_image back result :
  Forall (λ p, hasInlineData p = false) back →
  SynthesisResult.imageUrl (fold_left visit back result)
  = SynthesisResult.imageUrl result.
Proof.
  intros Hback. revert result.
  induction Hback as [|p back Hp _ IH]; intros result; [reflexivity|].
  simpl. rewrite IH. unfold visit. rewrite Hp.
  by destruct (truthy (Part.text p)).
Qed.

(** Parts that are not textual leave the text as it is. *)
Lemma fold_visit_keeps_text back result :
  Forall (λ p, textual p = false) back →
  SynthesisResult.text (fold_left visit back result)
  = SynthesisResult.text result.
Proof.
  intros Hback. revert result.
  induction Hback as [|p back Hp _ IH]; intros result; [reflexivity|].
  simpl. rewrite IH. unfold visit. unfold textual in Hp.
  destruct (hasInlineData p); [reflexivity|].
  simpl in Hp. by rewrite Hp.
Qed.

Lemma fold_visit_unusable parts result :
  Forall (λ p, usable p = false) parts →
  fold_left visit parts result = result.
Proof.
  intros Hparts. revert result.
  induction Hparts as [|p parts Hp _ IH]; intros result; [reflexivity|].
  simpl. by rewrite visit_unusable, IH.
Qed.

(** *** From the response to the settled promise *)

Lemma synthesizeImage_transport ai prompt images cause :
  ai (request prompt images) = Rejected cause →
  synthesizeImage ai prompt images
  = (logged prompt images cause, Rejected (Error failureMessage)).
Proof. intros H. unfold synthesizeImage, tryBlock. by rewrite H. Qed.

Lemma extract_firstParts response parts :
  firstParts response = Some parts →
  extract response = inr (fold_left visit parts emptyResult).
Proof.
  unfold firstParts, extract.
  destruct (GenerateContentResponse.candidates response) as [[|c cs]|];
    try discriminate.
  destruct (Candidate.content c) as [content|]; [|discriminate]. simpl.
  by intros ->.
Qed.

Lemma synthesizeImage_parts ai prompt images response parts :
  ai (request prompt images) = Resolved response →
  firstParts response = Some parts →
  synthesizeImage ai prompt images
  = match checked (fold_left visit parts emptyResult) with
    | inr result => ([GenerateContent (request prompt images)], Resolved result)
    | inl cause =>
        (logged prompt images cause, Rejected (Error failureMessage))
    end.
Proof.
  intros Hai Hparts. unfold synthesizeImage, tryBlock.
  rewrite Hai, (extract_firstParts _ _ Hparts).
  by destruct (checked _).
Qed.

Lemma checked_image result :
  truthy (SynthesisResult.imageUrl result) = true → checked result = inr result.
Proof. intros H. unfold checked. by rewrite H. Qed.

Lemma checked_text result :
  truthy (SynthesisResult.text result) = true → checked result = inr result.
Proof. intros H. unfold checked. rewrite H. by rewrite andb_false_r. Qed.

Lemma checked_inr result result' :
  checked result = inr result' →
  result' = result
  ∧ (truthy (SynthesisResult.imageUrl result) = true
     ∨ truthy (SynthesisResult.text result) = true).
Proof.
  unfold checked.
  destruct (truthy (SynthesisResult.imageUrl result)),
           (truthy (SynthesisResult.text result));
    simpl; intros H; inversion H; auto.
Qed.

Lemma extract_noUsableContent response :
  noUsableContent response → extract response = inr emptyResult.
Proof.
  intros [| |parts others Hparts]; try reflexivity.
  unfold extract. simpl. by rewrite fold_visit_unusable.
Qed.

Lemma synthesizeImage_noUsableContent ai prompt images response :
  ai (request prompt images) = Resolved response →
  noUsableContent response →
  synthesizeImage ai prompt images
  = (logged prompt images (Error noContentMessage),
     Rejected (Error failureMessage)).
Proof.
  intros Hai Hnone. unfold synthesizeImage, tryBlock.
  by rewrite Hai, (extract_noUsableContent _ Hnone).
Qed.

Lemma synthesizeImage_rejection ai prompt images e :
  (synthesizeImage ai prompt images).2 = Rejected e → e = Error failureMessage.
Proof.
  unfold synthesizeImage.
  destruct (tryBlock ai prompt images) as [effects [cause|result]]; simpl;
    intros H; by inversion H.
Qed.

Lemma synthesizeImage_requests ai prompt images :
  requests (synthesizeImage ai prompt images).1 = [request prompt images].
Proof.
  unfold synthesizeImage, tryBlock.
  destruct (ai _) as [response|cause]; [|reflexivity].
  destruct (extract response) as [cause|result]; [reflexivity|].
  by destruct (checked result).
Qed.

(** *** Request construction *)

(** C5.  For every prompt and every list of encoded images, exactly one
    request is sent, and its parts are one inline-data part per image, with
    that image's media type and payload, in the order of the input, followed
    by one text part holding the prompt verbatim. *)
Theorem request_parts_follow_input ai prompt images :
  ∃ sent,
    requests (synthesizeImage ai prompt images).1
    = [GenerateContentParameters.mk "gemini-2.5-flash-image-preview"
         (Content.mk (Some sent)) [IMAGE; TEXT]]
    ∧ length sent = S (length images)
    ∧ (∀ i image, images !! i = Some image →
         sent !! i
         = Some (Part.mk
                   (Some (Blob_.mk (Some (ImagePart.mimeType image))
                                   (ImagePart.data image)))
                   None))
    ∧ sent !! length images = Some (Part.mk None (Some prompt)).
Proof.
  exists (map imagePart images ++ [textPart prompt]).
  split; [apply synthesizeImage_requests|].
  split; [rewrite length_app, length_map; simpl; lia|].
  split.
  - intros i image Hi.
    rewrite lookup_app_l by (rewrite length_map; by eapply lookup_lt_Some).
    rewrite list_lookup_fmap, Hi. reflexivity.
  - rewrite lookup_app_r by (rewrite length_map; lia).
    rewrite length_map, Nat.sub_diag. reflexivity.
Qed.

(** *** Response parsing *)

(** C1, as the code has it.  When the first candidate has parts, the LAST
    part carrying non-empty inline data determines [imageUrl], which is
    exactly [data:<mimeType>;base64,<payload>], and the LAST part that
    carries non-empty text and no usable inline data determines [text]:
    a later part of a kind overwrites what an earlier one set. *)
Theorem last_part_of_each_kind_wins
    ai prompt images response front part back :
  ai (request prompt images) = Resolved response →
  firstParts response = Some (front ++ part :: back) →
  (∀ mimeType payload,
     Part.inlineData part = Some (Blob_.mk (Some mimeType) (Some payload)) →
     payload ≠ "" →
     Forall (λ p, hasInlineData p = false) back →
     ∃ result,
       (synthesizeImage ai prompt images).2 = Resolved result
       ∧ SynthesisResult.imageUrl result
         = Some ("data:" +:+ mimeType +:+ ";base64," +:+ payload))
  ∧ (∀ content,
       hasInlineData part = false →
       Part.text part = Some content →
       content ≠ "" →
       Forall (λ p, textual p = false) back →
       ∃ result,
         (synthesizeImage ai prompt images).2 = Resolved result
         ∧ SynthesisResult.text result = Some content).
Proof.
  intros Hai Hparts.
  rewrite (synthesizeImage_parts _ _ _ _ _ Hai Hparts).
  rewrite fold_left_app. simpl.
  set (before := fold_left visit front emptyResult).
  split.
  - intros mimeType payload Hinline Hpayload Hback.
    assert (Hhas : hasInlineData part = true).
    { unfold hasInlineData. rewrite Hinline. simpl. by apply truthy_Some. }
    assert (Himage :
      SynthesisResult.imageUrl (fold_left visit back (visit before part))
      = Some ("data:" +:+ mimeType +:+ ";base64," +:+ payload)).
    { rewrite (fold_visit_keeps_image _ _ Hback), (visit_image _ _ Hhas).
      by rewrite Hinline. }
    rewrite checked_image by (rewrite Himage; apply dataURL_truthy).
    eexists. split; [reflexivity|exact Himage].
  - intros content Hno Htext Hcontent Hback.
    assert (Htextual : textual part = true).
    { unfold textual. rewrite Hno, Htext. simpl. by apply truthy_Some. }
    assert (Hfinal :
      SynthesisResult.text (fold_left visit back (visit before part))
      = Some content).
    { rewrite (fold_visit_keeps_text _ _ Hback), (visit_text _ _ Htextual).
      exact Htext. }
    rewrite checked_text by (rewrite Hfinal; by apply truthy_Some).
    eexists. split; [reflexivity|exact Hfinal].
Qed.

(** C10.  The text of a part that carries non-empty inline data is never
    looked at: replacing it by any other value changes neither the effects
    nor the outcome of [synthesizeImage]; and the text of a result is always
    the text of a part of the first candidate that has no usable inline
    data. *)
Theorem text_beside_inline_data_is_ignored
    ai ai' prompt images response response' front part back anyText :
  ai (request prompt images) = Resolved response →
  ai' (request prompt images) = Resolved response' →
  firstParts response = Some (front ++ part :: back) →
  firstParts response'
  = Some (front ++ Part.mk (Part.inlineData part) anyText :: back) →
  hasInlineData part = true →
  synthesizeImage ai prompt images = synthesizeImage ai' prompt images
  ∧ (∀ result content,
       (synthesizeImage ai prompt images).2 = Resolved result →
       SynthesisResult.text result = Some content →
       ∃ source, source ∈ front ++ back
                 ∧ hasInlineData source = false
                 ∧ Part.text source = Some content).
Proof.
  intros Hai Hai' Hparts Hparts' Hhas.
  rewrite (synthesizeImage_parts _ _ _ _ _ Hai Hparts).
  rewrite (synthesizeImage_parts _ _ _ _ _ Hai' Hparts').
  rewrite !fold_left_app. simpl.
  assert (Hhas' : hasInlineData (Part.mk (Part.inlineData part) anyText) = true)
    by exact Hhas.
  rewrite (visit_image _ _ Hhas), (visit_image _ _ Hhas'). simpl.
  split; [reflexivity|].
  intros result content.
  set (start := SynthesisResult.mk _ _).
  destruct (checked (fold_left visit back start)) as [cause|final] eqn:Hchecked;
    [discriminate|].
  simpl. intros Hfinal Hcontent. inversion Hfinal; subst final.
  apply checked_inr in Hchecked as [-> _].
  revert Hcontent. subst start. clear.
  (* the text set after [back] comes from [back] or was there before *)
  assert (Hfold : ∀ ps r,
    SynthesisResult.text (fold_left visit ps r) = Some content →
    SynthesisResult.text r = Some content
    ∨ ∃ source, source ∈ ps ∧ hasInlineData source = false
                ∧ Part.text source = Some content).
  { induction ps as [|p ps IH]; intros r Hr; [by left|].
    simpl in Hr. apply IH in Hr as [Hr|(source & Hin & Hsrc)].
    - unfold visit in Hr. destruct (hasInlineData p) eqn:Hp; [by left|].
      destruct (truthy (Part.text p)); [|by left].
      right. exists p. split; [left|]. by split.
    - right. exists source. split; [by right|exact Hsrc]. }
  intros Hcontent. apply Hfold in Hcontent as [Hcontent|(source & Hin & Hsrc)].
  - simpl in Hcontent. apply Hfold in Hcontent as [Hcontent|(source & Hin & Hsrc)];
      [discriminate|].
    exists source. split; [|exact Hsrc]. apply elem_of_app. by left.
  - exists source. split; [|exact Hsrc]. apply elem_of_app. by right.
Qed.

(** *** Failures *)

(** C2, evaluated on the code.  For every transport exception and every
    response with no usable content the promise is rejected with one and
    the same error, [Error failureMessage]: the no-content error thrown
    inside the [try] block is caught by the block's own [catch], so its
    message, which differs from the generic one, never reaches the
    caller. *)
Theorem transport_and_no_content_rejections_coincide
    prompt images cause response :
  noUsableContent response →
  (synthesizeImage (λ _, Rejected cause) prompt images).2
  = Rejected (Error failureMessage)
  ∧ (synthesizeImage (λ _, Resolved response) prompt images).2
    = Rejected (Error failureMessage)
  ∧ noContentMessage ≠ failureMessage.
Proof.
  intros Hnone. split; [|split].
  - by rewrite (synthesizeImage_transport _ _ _ cause).
  - by rewrite (synthesizeImage_noUsableContent _ _ _ response).
  - discriminate.
Qed.

(** C4, evaluated on the code.  A resolved result always has a non-empty
    [imageUrl] or a non-empty [text].  A response with no candidates, or
    whose first candidate has no usable part, makes the promise reject, and
    the no-content error is what the console shows as the cause; but the
    error the promise is rejected with is the generic one, which differs
    from the no-content error.  A first candidate without a list of parts
    ends the same way, the cause being a [TypeError]. *)
Theorem no_content_is_rejected_with_the_generic_error :
  (∀ ai prompt images result,
     (synthesizeImage ai prompt images).2 = Resolved result →
     truthy (SynthesisResult.imageUrl result) = true
     ∨ truthy (SynthesisResult.text result) = true)
  ∧ (∀ ai prompt images response,
       ai (request prompt images) = Resolved response →
       noUsableContent response →
       synthesizeImage ai prompt images
       = ([GenerateContent (request prompt images);
           ConsoleError "Error calling Gemini API:" (Error noContentMessage)],
          Rejected (Error failureMessage))
       ∧ Error failureMessage ≠ Error noContentMessage)
  ∧ (∀ ai prompt images response,
       ai (request prompt images) = Resolved response →
       partsMissing response →
       ∃ message,
         synthesizeImage ai prompt images
         = ([GenerateContent (request prompt images);
             ConsoleError "Error calling Gemini API:" (TypeError message)],
            Rejected (Error failureMessage))).
Proof.
  split; [|split].
  - intros ai prompt images result. unfold synthesizeImage, tryBlock.
    destruct (ai _) as [response|cause]; [|discriminate].
    destruct (extract response) as [cause|extracted]; [discriminate|].
    destruct (checked extracted) as [cause|final] eqn:Hchecked; [discriminate|].
    simpl. intros Hfinal. inversion Hfinal; subst final.
    by apply checked_inr in Hchecked as [-> H].
  - intros ai prompt images response Hai Hnone. split; [|discriminate].
    by apply synthesizeImage_noUsableContent with response.
  - intros ai prompt images response Hai Hmissing.
    unfold synthesizeImage, tryBlock. rewrite Hai.
    destruct Hmissing; by eexists.
Qed.

(** C1 fails as stated: with two inline-data parts and two text parts the
    result carries the second image and the second text, not the first
    ones. *)
Lemma first_part_does_not_win :
  ∃ result,
    (synthesizeImage
       (Samples.answering [Samples.png; Samples.first; Samples.jpeg; Samples.second])
       "merge" []).2 = Resolved result
    ∧ SynthesisResult.imageUrl result = Some "data:image/jpeg;base64,BBBB"
    ∧ SynthesisResult.imageUrl result ≠ Some "data:image/png;base64,AAAA"
    ∧ SynthesisResult.text result = Some "second"
    ∧ SynthesisResult.text result ≠ Some "first".
Proof.
  eexists. split; [reflexivity|]. simpl. repeat split; discriminate.
Qed.

Lemma last_part_of_each_kind_wins_witness :
  (∃ result,
     (synthesizeImage
        (Samples.answering [Samples.png; Samples.first; Samples.jpeg; Samples.second])
        "merge" []).2 = Resolved result
     ∧ SynthesisResult.imageUrl result
       = Some ("data:" +:+ "image/jpeg" +:+ ";base64," +:+ "BBBB"))
  ∧ (∃ result,
       (synthesizeImage
          (Samples.answering [Samples.png; Samples.first; Samples.jpeg; Samples.second])
          "merge" []).2 = Resolved result
       ∧ SynthesisResult.text result = Some "second").
Proof.
  split.
  - apply (proj1 (last_part_of_each_kind_wins
                    (Samples.answering
                       [Samples.png; Samples.first; Samples.jpeg; Samples.second])
                    "merge" [] _ [Samples.png; Samples.first] Samples.jpeg
                    [Samples.second] eq_refl eq_refl) "image/jpeg" "BBBB").
    + reflexivity.
    + discriminate.
    + repeat constructor.
  - apply (proj2 (last_part_of_each_kind_wins
                    (Samples.answering
                       [Samples.png; Samples.first; Samples.jpeg; Samples.second])
                    "merge" [] _ [Samples.png; Samples.first; Samples.jpeg]
                    Samples.second [] eq_refl eq_refl) "second").
    + reflexivity.
    + reflexivity.
    + discriminate.
    + constructor.
Defined.

Lemma text_beside_inline_data_is_ignored_witness :
  synthesizeImage (Samples.answering [Samples.first; Samples.captioned]) "merge" []
  = synthesizeImage (Samples.answering [Samples.first; Samples.png]) "merge" [].
Proof.
  apply (text_beside_inline_data_is_ignored
           (Samples.answering [Samples.first; Samples.captioned])
           (Samples.answering [Samples.first; Samples.png])
           "merge" [] _ _ [Samples.first] Samples.captioned [] None
           eq_refl eq_refl eq_refl eq_refl eq_refl).
Defined.

Lemma transport_and_no_content_rejections_coincide_witness :
  (synthesizeImage Samples.offline "merge" []).2
  = (synthesizeImage Samples.blocked "merge" []).2.
Proof.
  destruct (transport_and_no_content_rejections_coincide
              "merge" [] (Error "fetch failed")
              (GenerateContentResponse.mk (Some [])) candidates_empty)
    as (Htransport & Hblocked & _).
  exact (eq_trans Htransport (eq_sym Hblocked)).
Defined.

Lemma no_content_is_rejected_with_the_generic_error_witness :
  synthesizeImage Samples.blocked "merge" []
  = ([GenerateContent (request "merge" []);
      ConsoleError "Error calling Gemini API:" (Error noContentMessage)],
     Rejected (Error failureMessage)).
Proof.
  apply (proj1 (proj2 no_content_is_rejected_with_the_generic_error)
           Samples.blocked "merge" [] _ eq_refl candidates_empty).
Defined.

End SynthesisClient.

(** * The transport encoding: decoding undoes encoding *)

Section Base64Facts.
Import Base64.

Local Open Scope Z_scope.

Lemma enumerate64 (P : Z → Prop) :
  (∀ k : nat, (k < 64)%nat → P (Z.of_nat k)) → ∀ n, 0 ≤ n < 64 → P n.
Proof.
  intros HP n Hn. replace n with (Z.of_nat (Z.to_nat n)) by lia.
  apply HP. lia.
Qed.

Lemma value_digit n : 0 ≤ n < 64 → value (digit n) = Some n.
Proof.
  revert n. apply enumerate64. intros k Hk.
  do 64 (destruct k as [|k]; [vm_compute; reflexivity|]). lia.
Qed.

Lemma digit_not_pad n : 0 ≤ n < 64 → Ascii.eqb (digit n) pad = false.
Proof.
  revert n. apply enumerate64. intros k Hk.
  do 64 (destruct k as [|k]; [vm_compute; reflexivity|]). lia.
Qed.

Lemma digit_not_comma n : 0 ≤ n < 64 → Ascii.eqb (digit n) "," = false.
Proof.
  revert n. apply enumerate64. intros k Hk.
  do 64 (destruct k as [|k]; [vm_compute; reflexivity|]). lia.
Qed.

Lemma octet_range b : 0 ≤ octet b < 256.
Proof. unfold octet. pose proof (Byte.to_N_bounded b). lia. Qed.

Lemma toByte_octet b : toByte (octet b) = Some b.
Proof. unfold toByte, octet. rewrite N2Z.id. apply Byte.of_to_N. Qed.

(** The four 6-bit groups of three octets, and back. *)
Lemma regroup3 x y z :
  0 ≤ x < 256 → 0 ≤ y < 256 → 0 ≤ z < 256 →
  let n := x * 65536 + y * 256 + z in
  let m := n / 262144 * 262144 + n / 4096 mod 64 * 4096
           + n / 64 mod 64 * 64 + n mod 64 in
  (0 ≤ n / 262144 < 64 ∧ 0 ≤ n / 4096 mod 64 < 64
   ∧ 0 ≤ n / 64 mod 64 < 64 ∧ 0 ≤ n mod 64 < 64)
  ∧ m / 65536 = x ∧ m / 256 mod 256 = y ∧ m mod 256 = z.
Proof.
  intros Hx Hy Hz n m.
  assert (Hm : m = n) by (subst m; Z.div_mod_to_equations; lia).
  rewrite Hm. subst n. clear m Hm.
  repeat split; Z.div_mod_to_equations; lia.
Qed.

Lemma regroup2 x y :
  0 ≤ x < 256 → 0 ≤ y < 256 →
  let n := (x * 256 + y) * 4 in
  let m := n / 4096 * 4096 + n / 64 mod 64 * 64 + n mod 64 in
  (0 ≤ n / 4096 < 64 ∧ 0 ≤ n / 64 mod 64 < 64 ∧ 0 ≤ n mod 64 < 64)
  ∧ m / 1024 = x ∧ m / 4 mod 256 = y.
Proof.
  intros Hx Hy n m.
  assert (Hm : m = n) by (subst m; Z.div_mod_to_equations; lia).
  rewrite Hm. subst n. clear m Hm.
  repeat split; Z.div_mod_to_equations; lia.
Qed.

Lemma regroup1 x :
  0 ≤ x < 256 →
  let n := x * 16 in
  let m := n / 64 * 64 + n mod 64 in
  (0 ≤ n / 64 < 64 ∧ 0 ≤ n mod 64 < 64) ∧ m / 16 = x.
Proof.
  intros Hx n m.
  assert (Hm : m = n) by (subst m; Z.div_mod_to_equations; lia).
  rewrite Hm. subst n. clear m Hm.
  repeat split; Z.div_mod_to_equations; lia.
Qed.

Local Arguments digit : simpl never.
Local Arguments value : simpl never.
Local Arguments decode3 : simpl never.
Local Arguments Z.mul : simpl never.
Local Arguments Z.add : simpl never.
Local Arguments Z.div : simpl never.
Local Arguments Z.modulo : simpl never.

Lemma str_quad c1 c2 c3 c4 s :
  str [c1; c2; c3; c4] +:+ s = String c1 (String c2 (String c3 (String c4 s))).
Proof. reflexivity. Qed.

Lemma decode_quad c1 c2 c3 c4 rest :
  Ascii.eqb c4 pad = false →
  decode (String c1 (String c2 (String c3 (String c4 rest))))
  = (front ← decode3 c1 c2 c3 c4; back ← decode rest; Some (front ++ back)).
Proof. intros H. simpl. by rewrite H. Qed.

Lemma decode3_encode3 a b c :
  let n := octet a * 65536 + octet b * 256 + octet c in
  decode3 (digit (n / 262144)) (digit (n / 4096 mod 64))
          (digit (n / 64 mod 64)) (digit (n mod 64))
  = Some [a; b; c].
Proof.
  intros n.
  destruct (regroup3 (octet a) (octet b) (octet c))
    as ((H1 & H2 & H3 & H4) & Ha & Hb & Hc); try apply octet_range.
  fold n in H1, H2, H3, H4, Ha, Hb, Hc.
  unfold decode3.
  rewrite !value_digit by assumption. simpl.
  rewrite Ha, Hb, Hc, !toByte_octet. reflexivity.
Qed.

Lemma decode_encode2 a b : decode (str (encode2 (octet a) (octet b))) = Some [a; b].
Proof.
  destruct (regroup2 (octet a) (octet b))
    as ((H1 & H2 & H3) & Ha & Hb); try apply octet_range.
  unfold encode2. simpl.
  rewrite (digit_not_pad _ H3). unfold decode2.
  rewrite !value_digit by assumption. simpl.
  rewrite Ha, Hb, !toByte_octet. reflexivity.
Qed.

Lemma decode_encode1 a : decode (str (encode1 (octet a))) = Some [a].
Proof.
  destruct (regroup1 (octet a)) as ((H1 & H2) & Ha); try apply octet_range.
  unfold encode1. simpl. unfold decode1.
  rewrite !value_digit by assumption. simpl.
  rewrite Ha, !toByte_octet. reflexivity.
Qed.

(** Induction on a list of bytes, three at a time. *)
Lemma triples_ind (P : list byte → Prop) :
  P [] → (∀ a, P [a]) → (∀ a b, P [a; b]) →
  (∀ a b c rest, P rest → P (a :: b :: c :: rest)) →
  ∀ bytes, P bytes.
Proof.
  intros H0 H1 H2 H3 bytes.
  cut (P bytes ∧ (∀ a, P (a :: bytes)) ∧ (∀ a b, P (a :: b :: bytes)));
    [tauto|].
  induction bytes as [|c rest (IH0 & IH1 & IH2)]; [by auto|].
  split; [apply IH1|]. split; [intros a; apply IH2|].
  intros a b. by apply H3.
Qed.

(** Decoding the encoding of any bytes gives back these bytes. *)
Lemma decode_encode bytes : decode (encode bytes) = Some bytes.
Proof.
  induction bytes as [|a|a b|a b c rest IH] using triples_ind.
  - reflexivity.
  - apply decode_encode1.
  - apply decode_encode2.
  - destruct (regroup3 (octet a) (octet b) (octet c))
      as ((_ & _ & _ & H4) & _); try apply octet_range.
    change (encode (a :: b :: c :: rest))
      with (str (encode3 (octet a) (octet b) (octet c)) +:+ encode rest).
    unfold encode3. lazy zeta. rewrite str_quad.
    rewrite (decode_quad _ _ _ _ _ (digit_not_pad _ H4)).
    rewrite decode3_encode3, IH. reflexivity.
Qed.

(** The encoding uses no comma. *)
Lemma encode_no_comma bytes : Js.occurs "," (encode bytes) = false.
Proof.
  induction bytes as [|a|a b|a b c rest IH] using triples_ind.
  - reflexivity.
  - destruct (regroup1 (octet a)) as ((H1 & H2) & _); try apply octet_range.
    cbn [encode]. unfold encode1. lazy zeta. cbn [str string_of_list_ascii Js.occurs].
    by rewrite !digit_not_comma.
  - destruct (regroup2 (octet a) (octet b)) as ((H1 & H2 & H3) & _);
      try apply octet_range.
    cbn [encode]. unfold encode2. lazy zeta. cbn [str string_of_list_ascii Js.occurs].
    by rewrite !digit_not_comma.
  - destruct (regroup3 (octet a) (octet b) (octet c))
      as ((H1 & H2 & H3 & H4) & _); try apply octet_range.
    change (encode (a :: b :: c :: rest))
      with (str (encode3 (octet a) (octet b) (octet c)) +:+ encode rest).
    unfold encode3. lazy zeta. rewrite str_quad. cbn [Js.occurs].
    by rewrite !digit_not_comma, IH.
Qed.

End Base64Facts.

(** * The image intake and the submission *)

Section Intake.
Import Js Browser App.

Implicit Types (w : world) (s : state) (file : File.t) (index : Z).

(** *** Splitting at commas *)

Lemma append_String c (s1 s2 : string) :
  String c s1 +:+ s2 = String c (s1 +:+ s2).
Proof. reflexivity. Qed.

Lemma append_assoc (s1 s2 s3 : string) :
  (s1 +:+ s2) +:+ s3 = s1 +:+ (s2 +:+ s3).
Proof.
  induction s1 as [|c s1 IH]; [reflexivity|].
  by rewrite !append_String, IH.
Qed.

Lemma occurs_append c (s1 s2 : string) :
  occurs c (s1 +:+ s2) = (occurs c s1 || occurs c s2)%bool.
Proof.
  induction s1 as [|c1 s1 IH]; [reflexivity|].
  rewrite append_String. simpl. by rewrite IH, orb_assoc.
Qed.

(** A text without the separator is its own single piece. *)
Lemma split_without sep (s : string) :
  occurs sep s = false → split sep s = [s].
Proof.
  induction s as [|c s IH]; simpl; [reflexivity|].
  rewrite orb_false_iff. intros [Hc Hs]. by rewrite Hc, (IH Hs).
Qed.

(** The first piece ends at the first separator. *)
Lemma split_at_first sep (s1 s2 : string) :
  occurs sep s1 = false →
  split sep (s1 +:+ String sep s2) = s1 :: split sep s2.
Proof.
  induction s1 as [|c s1 IH].
  - intros _. change ("" +:+ String sep s2) with (String sep s2). simpl.
    by rewrite Ascii.eqb_refl.
  - rewrite append_String. simpl.
    rewrite orb_false_iff. intros [Hc Hs]. by rewrite Hc, (IH Hs).
Qed.

(** What the reader produces for readable bytes: a prefix without comma,
    one comma, the encoded bytes. *)
Lemma readAsDataURL_shape file bytes :
  File.content file = Readable bytes →
  occurs "," (File.type file) = false →
  ∃ prefix,
    readAsDataURL file = Some (prefix +:+ String "," (Base64.encode bytes))
    ∧ occurs "," prefix = false.
Proof.
  intros Hcontent Htype. unfold readAsDataURL. rewrite Hcontent.
  set (mediaType := if String.eqb _ _ then _ else _).
  exists ("data:" +:+ mediaType +:+ ";base64"). split.
  - f_equal. by rewrite !append_assoc.
  - rewrite !occurs_append. subst mediaType.
    destruct (String.eqb _ _); [reflexivity|]. by rewrite Htype.
Qed.

(** *** Encoding *)

(** C6.  For every file that can be read and whose declared media type has
    no comma in it (no media type has one), [fileToBase64] resolves with a
    payload whose base64 decoding is the file's content, byte for byte, and
    the image part built from the entry pairs that payload with the file's
    declared type. *)
Theorem encoded_payload_decodes_to_content file bytes preview :
  File.content file = Readable bytes →
  occurs "," (File.type file) = false →
  ∃ payload,
    fileToBase64 file = Resolved (Some payload)
    ∧ Base64.decode payload = Some bytes
    ∧ encodeEntry (ImageFile.mk file preview)
      = Resolved (GeminiService.ImagePart.mk (File.type file) (Some payload)).
Proof.
  intros Hcontent Htype.
  destruct (readAsDataURL_shape _ _ Hcontent Htype) as (prefix & Hread & Hprefix).
  assert (Hpayload :
    fileToBase64 file = Resolved (Some (Base64.encode bytes))).
  { unfold fileToBase64. rewrite Hread, (split_at_first _ _ _ Hprefix).
    by rewrite (split_without _ _ (encode_no_comma bytes)). }
  exists (Base64.encode bytes). split; [exact Hpayload|].
  split; [apply decode_encode|].
  unfold encodeEntry. simpl. by rewrite Hpayload.
Qed.

Lemma encoded_payload_decodes_to_content_witness :
  ∃ payload,
    fileToBase64 Samples.cat = Resolved (Some payload)
    ∧ Base64.decode payload = Some (list_byte_of_string "Many")
    ∧ encodeEntry (ImageFile.mk Samples.cat "blob:0")
      = Resolved (GeminiService.ImagePart.mk "image/png" (Some payload)).
Proof.
  apply (encoded_payload_decodes_to_content
           Samples.cat (list_byte_of_string "Many") "blob:0");
    reflexivity.
Defined.

(** *** Validation *)

Lemma handleSubmit_imageFiles (ai : GeminiService.Models) s :
  imageFiles (handleSubmit ai s).2 = imageFiles s.
Proof.
  unfold handleSubmit.
  destruct (_ || _)%bool; [reflexivity|].
  destruct (promiseAll _) as [imageParts|err]; [|reflexivity].
  destruct (GeminiService.synthesizeImage _ _ _) as [effects [result|err]];
    reflexivity.
Qed.

(** C3 fails as stated: called with the empty prompt and no images,
    [synthesizeImage] sends a request, whose only part is the empty text,
    and resolves with what the remote answers. *)
Lemma blank_input_is_sent :
  GeminiService.synthesizeImage (Samples.answering [Samples.first]) "" []
  = ([GeminiService.GenerateContent
        (GeminiService.GenerateContentParameters.mk
           "gemini-2.5-flash-image-preview"
           (GeminiService.Content.mk
              (Some [GeminiService.Part.mk None (Some "")]))
           [GeminiService.IMAGE; GeminiService.TEXT])],
     Resolved (GeminiService.SynthesisResult.mk None (Some "first"))).
Proof. reflexivity. Qed.

(** C3, as the code has it.  [synthesizeImage] validates nothing: for
    every prompt, the blank ones included, and no images it sends exactly
    one request, whose only part is the text part with the prompt.  The
    check is the caller's:
    [handleSubmit] with no image or with a blank prompt sets the validation
    message and returns; it performs no effect, so no request is sent.  A
    blank prompt is one that [trim] leaves empty, which is to say one made of
    white space characters only, those beyond ASCII included. *)
Theorem validation_is_done_by_the_caller :
  (∀ ai prompt,
     GeminiService.requests (GeminiService.synthesizeImage ai prompt []).1
     = [GeminiService.GenerateContentParameters.mk
          "gemini-2.5-flash-image-preview"
          (GeminiService.Content.mk
             (Some [GeminiService.Part.mk None (Some prompt)]))
          [GeminiService.IMAGE; GeminiService.TEXT]])
  ∧ (∀ ai s,
       imageFiles s = [] ∨ trim (prompt s) = "" →
       handleSubmit ai s = ([], setError (Some validationMessage) s))
  ∧ (∀ ai s,
       imageFiles s = [] ∨ blank (prompt s) →
       handleSubmit ai s = ([], setError (Some validationMessage) s)).
Proof.
  assert (Hcaller : ∀ ai s,
    imageFiles s = [] ∨ trim (prompt s) = "" →
    handleSubmit ai s = ([], setError (Some validationMessage) s)).
  { intros ai s Hblank. unfold handleSubmit.
    destruct Hblank as [-> | ->]; [reflexivity|].
    by rewrite orb_true_r. }
  split; [|split].
  - intros ai prompt. apply synthesizeImage_requests.
  - exact Hcaller.
  - intros ai s [Hfiles|Hblank]; apply Hcaller; [by left|].
    right. by apply trim_empty_iff_blank.
Qed.

Lemma validation_is_done_by_the_caller_witness :
  GeminiService.requests
    (GeminiService.synthesizeImage Samples.offline "  " []).1
  = [GeminiService.GenerateContentParameters.mk
       "gemini-2.5-flash-image-preview"
       (GeminiService.Content.mk
          (Some [GeminiService.Part.mk None (Some "  ")]))
       [GeminiService.IMAGE; GeminiService.TEXT]]
  ∧ handleSubmit Samples.offline (ui initial)
    = ([], setError (Some validationMessage) (ui initial))
  ∧ handleSubmit Samples.offline
      (setPrompt Samples.wideBlank
         (ui (handleFileChange (Some [Samples.cat]) initial).2))
    = ([], setError (Some validationMessage)
             (setPrompt Samples.wideBlank
                (ui (handleFileChange (Some [Samples.cat]) initial).2))).
Proof.
  split; [|split].
  - apply (proj1 validation_is_done_by_the_caller Samples.offline "  ").
  - apply (proj1 (proj2 validation_is_done_by_the_caller)
             Samples.offline (ui initial)).
    left. reflexivity.
  - apply (proj2 (proj2 validation_is_done_by_the_caller) Samples.offline
             (setPrompt Samples.wideBlank
                (ui (handleFileChange (Some [Samples.cat]) initial).2))).
    right. apply blank_2; [reflexivity|]. apply blank_3; [reflexivity|].
    apply blank_empty.
Defined.

(** *** Removing outside the collection *)

(** C9.  For an index below zero or not below the length, [removeImage]
    throws an error before it does anything: no effect is performed (no
    preview is released) and the world, with its collection, is the one it
    was. *)
Theorem removeImage_out_of_range_changes_nothing w index :
  (index < 0 ∨ Z.of_nat (length (imageFiles (ui w))) ≤ index)%Z →
  ∃ message, removeImage index w = ([], w, Throws (TypeError message)).
Proof.
  intros Hout. unfold removeImage, at_.
  destruct (Z.ltb_spec index 0) as [Hneg|Hpos]; [by eexists|].
  destruct Hout as [Hout|Hout]; [lia|].
  rewrite lookup_ge_None_2 by lia. by eexists.
Qed.

Lemma removeImage_out_of_range_changes_nothing_witness :
  ∃ message,
    removeImage 2 (handleFileChange (Some [Samples.cat; Samples.hat]) initial).2
    = ([], (handleFileChange (Some [Samples.cat; Samples.hat]) initial).2,
       Throws (TypeError message)).
Proof.
  apply (removeImage_out_of_range_changes_nothing
           (handleFileChange (Some [Samples.cat; Samples.hat]) initial).2 2).
  right. simpl. lia.
Defined.

(** *** The lifetime invariant *)

Lemma objectURL_inj n m : URL.objectURL n = URL.objectURL m → n = m.
Proof.
  unfold URL.objectURL. rewrite !append_String.
  intros H. injection H as H. by apply (inj pretty).
Qed.

(** What minting previews for [files] does: one entry per file, in order,
    with the next unused URLs, which become live. *)
Lemma filePreviews_spec files r :
  map ImageFile.file (filePreviews files r).1 = files
  ∧ map ImageFile.preview (filePreviews files r).1
    = map URL.objectURL (seq (URL.minted r) (length files))
  ∧ URL.minted (filePreviews files r).2 = URL.minted r + length files
  ∧ (∀ url, url ∈ URL.live (filePreviews files r).2
            ↔ url ∈ URL.live r
              ∨ url ∈ map ImageFile.preview (filePreviews files r).1).
Proof.
  revert r. induction files as [|file files IH]; intros r.
  - simpl. repeat split; try lia; [tauto|].
    intros [H|H]; [exact H|]. by apply elem_of_nil in H.
  - simpl.
    destruct (IH (URL.mk (S (URL.minted r))
                         ({[URL.objectURL (URL.minted r)]} ∪ URL.live r)))
      as (Hfiles & Hpreviews & Hminted & Hlive).
    destruct (filePreviews files _) as [entries r2]. simpl in *.
    split; [by rewrite Hfiles|]. split; [by rewrite Hpreviews|].
    split; [lia|]. intros url.
    rewrite Hlive, elem_of_cons, elem_of_union, elem_of_singleton. tauto.
Qed.

Lemma revoke_all_minted urls r :
  URL.minted (fold_left (λ r url, URL.revokeObjectURL url r) urls r)
  = URL.minted r.
Proof. revert r. induction urls as [|u urls IH]; intros r; simpl; [done|]. by rewrite IH. Qed.

Lemma revoke_all_live urls r url :
  url ∈ URL.live (fold_left (λ r url, URL.revokeObjectURL url r) urls r)
  ↔ url ∈ URL.live r ∧ url ∉ urls.
Proof.
  revert r. induction urls as [|u urls IH]; intros r; simpl.
  - split; [|tauto]. intros H. split; [exact H|]. apply not_elem_of_nil.
  - rewrite IH. simpl.
    rewrite not_elem_of_cons, elem_of_difference, elem_of_singleton. tauto.
Qed.

Lemma consistent_initial : consistent initial.
Proof.
  split.
  - constructor.
  - intros url. simpl. rewrite elem_of_empty, elem_of_nil. tauto.
  - intros url H. by apply elem_of_nil in H.
Qed.

Lemma handleFileChange_consistent files w :
  consistent w → consistent (handleFileChange files w).2.
Proof.
  intros [Hdistinct Hlive Hminted].
  destruct files as [files|]; [|by split].
  unfold handleFileChange.
  destruct (filePreviews_spec files (urls w))
    as (_ & Hpreviews & Hcount & Hnew).
  destruct (filePreviews files (urls w)) as [entries r]. simpl in *.
  assert (Hfresh : ∀ url, url ∈ map ImageFile.preview entries →
            ∃ n, URL.minted (urls w) ≤ n < URL.minted r ∧ url = URL.objectURL n).
  { intros url. rewrite Hpreviews, list_elem_of_fmap.
    intros (n & -> & Hn). apply elem_of_seq in Hn. exists n. split; [lia|done]. }
  split; unfold previews; simpl; rewrite map_app.
  - apply NoDup_app. split; [exact Hdistinct|]. split.
    + intros url Hold Hfreshly.
      apply Hminted in Hold as (n & Hn & ->).
      apply Hfresh in Hfreshly as (m & Hm & Heq).
      apply objectURL_inj in Heq. lia.
    + rewrite Hpreviews. apply NoDup_fmap_2; [|apply NoDup_seq].
      intros n m. apply objectURL_inj.
  - intros url. rewrite Hnew, elem_of_app, Hlive. reflexivity.
  - intros url. rewrite elem_of_app. intros [Hold|Hfreshly].
    + apply Hminted in Hold as (n & Hn & ->). exists n. split; [lia|done].
    + apply Hfresh in Hfreshly as (n & Hn & ->). exists n. split; [lia|done].
Qed.

Lemma at_Some {A} (arr : list A) index x :
  at_ arr index = Some x ↔ (0 ≤ index)%Z ∧ arr !! Z.to_nat index = Some x.
Proof.
  unfold at_. destruct (Z.ltb_spec index 0); split.
  - discriminate.
  - intros [? _]. lia.
  - intros H'. split; [lia|exact H'].
  - by intros [_ H'].
Qed.

Lemma NoDup_middle (l1 l2 : list string) x :
  NoDup (l1 ++ x :: l2) → ∀ y, y ∈ l1 ++ l2 ↔ y ∈ l1 ++ x :: l2 ∧ y ≠ x.
Proof.
  intros Hl y.
  apply NoDup_app in Hl as (_ & Hdisjoint & Hrest).
  apply NoDup_cons in Hrest as (Hx & _).
  rewrite !elem_of_app, elem_of_cons. split.
  - intros [Hy|Hy]; (split; [tauto|]); intros ->.
    + apply (Hdisjoint x Hy). left.
    + exact (Hx Hy).
  - intros [[Hy|[->|Hy]] Hne]; tauto.
Qed.

Lemma NoDup_lookup_delete (l : list string) i x :
  NoDup l → l !! i = Some x → ∀ y, y ∈ delete i l ↔ y ∈ l ∧ y ≠ x.
Proof.
  intros Hl Hi. rewrite delete_take_drop.
  pose proof (take_drop_middle _ _ _ Hi) as Hsplit.
  remember (take i l) as l1 eqn:Hl1. remember (drop (S i) l) as l2 eqn:Hl2.
  clear Hl1 Hl2 Hi. subst l. by apply NoDup_middle.
Qed.

Lemma removeImage_consistent index w :
  consistent w → consistent (removeImage index w).1.2.
Proof.
  intros [Hdistinct Hlive Hminted]. unfold removeImage.
  destruct (at_ (imageFiles (ui w)) index) as [entry|] eqn:Hat; [|by split].
  apply at_Some in Hat as [_ Hat].
  assert (Hpreview : previews w !! Z.to_nat index = Some (ImageFile.preview entry)).
  { unfold previews. by rewrite list_lookup_fmap, Hat. }
  assert (Hdelete :
    map ImageFile.preview (delete (Z.to_nat index) (imageFiles (ui w)))
    = delete (Z.to_nat index) (previews w)).
  { unfold previews. apply (list_fmap_delete ImageFile.preview). }
  split; unfold previews in *; simpl; rewrite Hdelete.
  - exact (sublist_NoDup _ _ Hdistinct (sublist_delete _ _)).
  - intros url.
    rewrite (NoDup_lookup_delete _ _ _ Hdistinct Hpreview), <- Hlive.
    rewrite elem_of_difference, elem_of_singleton. tauto.
  - intros url Hurl. apply Hminted.
    by apply (NoDup_lookup_delete _ _ _ Hdistinct Hpreview) in Hurl as [Hurl _].
Qed.

Lemma clearAllImages_consistent w :
  consistent w → consistent (clearAllImages w).2.
Proof.
  intros [Hdistinct Hlive Hminted]. split; unfold previews; simpl.
  - constructor.
  - intros url. rewrite revoke_all_live, Hlive. unfold previews.
    split; [tauto|]. intros H. by apply elem_of_nil in H.
  - intros url H. by apply elem_of_nil in H.
Qed.

Lemma perform_consistent a w : consistent w → consistent (perform a w).2.
Proof.
  intros Hw. destruct a as [files|index| |value|ai]; simpl.
  - by apply handleFileChange_consistent.
  - pose proof (removeImage_consistent index w Hw) as H.
    by destruct (removeImage index w) as [[effects w'] c].
  - by apply clearAllImages_consistent.
  - destruct Hw. by split.
  - pose proof (handleSubmit_imageFiles ai (ui w)) as Hsame.
    destruct (handleSubmit ai (ui w)) as [effects s]. simpl in *.
    destruct Hw as [Hdistinct Hlive Hminted].
    split; unfold previews in *; simpl; by rewrite Hsame.
Qed.

Lemma run_consistent actions w : consistent w → consistent (run actions w).2.
Proof.
  revert w. induction actions as [|a actions IH]; intros w Hw; [exact Hw|].
  simpl. pose proof (perform_consistent a w Hw) as H1.
  destruct (perform a w) as [effects1 w1].
  specialize (IH w1 H1). by destruct (run actions w1) as [effects2 w2].
Qed.

(** Every world the page can be in satisfies the lifetime invariant. *)
Lemma reachable_consistent w : reachable w → consistent w.
Proof. intros [actions <-]. apply run_consistent, consistent_initial. Qed.

(** *** Removing one entry *)

(** C7.  In every world the page can be in, for every index within the
    collection, [removeImage] releases the preview of the entry at that
    index and nothing else, and removes that entry and nothing else: the
    entries before it keep their place, the entries after it move down by
    one, the released preview is no longer live, the previews of all other
    entries stay live and no other object URL changes its status. *)
Theorem removeImage_touches_only_that_entry w index :
  reachable w →
  (0 ≤ index < Z.of_nat (length (imageFiles (ui w))))%Z →
  ∃ entry w',
    imageFiles (ui w) !! Z.to_nat index = Some entry
    ∧ removeImage index w
      = ([RevokeObjectURL (ImageFile.preview entry)], w', Normal)
    ∧ length (imageFiles (ui w')) = (length (imageFiles (ui w)) - 1)%nat
    ∧ (∀ j : nat, (j < Z.to_nat index)%nat →
         imageFiles (ui w') !! j = imageFiles (ui w) !! j)
    ∧ (∀ j : nat, (Z.to_nat index ≤ j)%nat →
         imageFiles (ui w') !! j = imageFiles (ui w) !! S j)
    ∧ (ImageFile.preview entry ∉ URL.live (urls w'))
    ∧ (∀ j other,
         j ≠ Z.to_nat index → imageFiles (ui w) !! j = Some other →
         ImageFile.preview other ∈ URL.live (urls w'))
    ∧ (∀ url, url ≠ ImageFile.preview entry →
         (url ∈ URL.live (urls w') ↔ url ∈ URL.live (urls w))).
Proof.
  intros Hreach Hrange.
  destruct (reachable_consistent _ Hreach) as [Hdistinct Hlive _].
  destruct (lookup_lt_is_Some_2 (imageFiles (ui w)) (Z.to_nat index))
    as [entry Hentry]; [lia|].
  exists entry. eexists. split; [exact Hentry|]. split.
  { unfold removeImage.
    rewrite (proj2 (at_Some _ _ _) (conj (proj1 Hrange) Hentry)). reflexivity. }
  simpl. split; [apply length_delete; by exists entry|].
  split; [intros j Hj; by apply list_lookup_delete_lt|].
  split; [intros j Hj; by apply list_lookup_delete_ge|].
  split.
  { rewrite elem_of_difference, elem_of_singleton. tauto. }
  split.
  - intros j other Hj Hother.
    rewrite elem_of_difference, elem_of_singleton. split.
    + apply Hlive. unfold previews.
      apply list_elem_of_lookup. exists j.
      by rewrite list_lookup_fmap, Hother.
    + intros Hsame. apply Hj.
      apply (NoDup_lookup _ _ _ (ImageFile.preview other) Hdistinct);
        unfold previews; rewrite list_lookup_fmap.
      * by rewrite Hother.
      * by rewrite Hentry, Hsame.
  - intros url Hurl. rewrite elem_of_difference, elem_of_singleton. tauto.
Qed.

Lemma removeImage_touches_only_that_entry_witness :
  ∃ entry w',
    imageFiles (ui (run [FileChange (Some [Samples.cat; Samples.hat])] initial).2)
      !! Z.to_nat 0 = Some entry
    ∧ removeImage 0 (run [FileChange (Some [Samples.cat; Samples.hat])] initial).2
      = ([RevokeObjectURL (ImageFile.preview entry)], w', Normal)
    ∧ length (imageFiles (ui w'))
      = (length (imageFiles
                   (ui (run [FileChange (Some [Samples.cat; Samples.hat])] initial).2))
         - 1)%nat.
Proof.
  destruct (removeImage_touches_only_that_entry
              (run [FileChange (Some [Samples.cat; Samples.hat])] initial).2 0)
    as (entry & w' & Hentry & Hremove & Hlength & _).
  - exists [FileChange (Some [Samples.cat; Samples.hat])]. reflexivity.
  - simpl. lia.
  - exists entry, w'. split; [exact Hentry|]. split; [exact Hremove|exact Hlength].
Defined.

(** *** Adding, then clearing *)

Lemma created_previews (entries : list ImageFile.t) :
  created (map (λ e, CreateObjectURL (ImageFile.preview e)) entries)
  = map ImageFile.preview entries.
Proof. induction entries as [|e entries IH]; simpl; [done|]. by rewrite <- IH. Qed.

Lemma revoked_created (entries : list ImageFile.t) :
  revoked (map (λ e, CreateObjectURL (ImageFile.preview e)) entries) = [].
Proof. induction entries as [|e entries IH]; simpl; [done|]. exact IH. Qed.

Lemma revoked_revocations (urls : list string) :
  revoked (map RevokeObjectURL urls) = urls.
Proof. induction urls as [|u urls IH]; simpl; [done|]. by rewrite <- IH at 2. Qed.

Lemma filter_absent (l : list string) x :
  x ∉ l → filter (λ u, u = x) l = [].
Proof.
  induction l as [|y l IH]; [done|].
  rewrite not_elem_of_cons. intros [Hne Hl].
  rewrite filter_cons. destruct (decide (y = x)) as [->|_]; [done|]. by apply IH.
Qed.

(** In a list without repetition every member occurs once. *)
Lemma NoDup_occurs_once (l : list string) x :
  NoDup l → x ∈ l → length (filter (λ u, u = x) l) = 1.
Proof.
  intros Hl. induction Hl as [|y l Hy Hl IH]; intros Hx.
  - by apply elem_of_nil in Hx.
  - apply elem_of_cons in Hx. rewrite filter_cons.
    destruct (decide (y = x)) as [->|Hne].
    + simpl. by rewrite (filter_absent _ _ Hy).
    + destruct Hx as [->|Hx]; [done|]. by apply IH.
Qed.

(** C8.  In every world the page can be in, adding a selection of files
    (empty or not) and then clearing leaves the collection empty and no
    object URL live; one preview was minted per file, all different, each
    was live after the addition, and each is revoked exactly once by the
    two steps together. *)
Theorem add_then_clear_releases_every_preview_once w files :
  reachable w →
  let added := handleFileChange (Some files) w in
  let cleared := clearAllImages added.2 in
  imageFiles (ui cleared.2) = []
  ∧ URL.live (urls cleared.2) = ∅
  ∧ length (created added.1) = length files
  ∧ NoDup (created added.1)
  ∧ ∀ url, url ∈ created added.1 →
      url ∈ URL.live (urls added.2)
      ∧ length (filter (λ u, u = url) (revoked (added.1 ++ cleared.1))) = 1.
Proof.
  intros Hreach added cleared.
  pose proof (reachable_consistent _ Hreach) as Hw.
  pose proof (handleFileChange_consistent (Some files) w Hw) as Hadded.
  pose proof (clearAllImages_consistent _ Hadded) as Hcleared.
  fold added in Hadded. fold added cleared in Hcleared.
  assert (Hcreated : ∃ entries,
    created added.1 = map ImageFile.preview entries
    ∧ revoked added.1 = []
    ∧ length entries = length files
    ∧ previews added.2 = previews w ++ map ImageFile.preview entries).
  { subst added. unfold handleFileChange.
    destruct (filePreviews_spec files (urls w)) as (Hfiles & _).
    destruct (filePreviews files (urls w)) as [entries r]. simpl in *.
    exists entries. rewrite created_previews, revoked_created.
    repeat split.
    - by rewrite <- Hfiles, length_map.
    - unfold previews. simpl. apply map_app. }
  destruct Hcreated as (entries & Hcreated & Hnone & Hlength & Hpreviews).
  destruct Hadded as [Hdistinct Hlive _].
  split; [reflexivity|]. split.
  { apply elem_of_equiv_empty_L. intros url Hurl.
    apply (previews_live _ Hcleared) in Hurl. by apply elem_of_nil in Hurl. }
  split; [by rewrite Hcreated, length_map|].
  split.
  { rewrite Hcreated. rewrite Hpreviews in Hdistinct.
    by apply NoDup_app in Hdistinct as (_ & _ & Hnew). }
  intros url Hurl.
  assert (Hin : url ∈ previews added.2).
  { rewrite Hpreviews, elem_of_app. right. by rewrite <- Hcreated. }
  split; [by apply Hlive|].
  unfold revoked. rewrite omap_app. fold (revoked added.1) (revoked cleared.1).
  rewrite Hnone. simpl.
  change (revoked cleared.1) with (revoked (map RevokeObjectURL (previews added.2))).
  rewrite revoked_revocations. by apply NoDup_occurs_once.
Qed.

Lemma add_then_clear_releases_every_preview_once_witness :
  imageFiles
    (ui (clearAllImages
           (handleFileChange (Some [Samples.cat; Samples.hat]) initial).2).2) = []
  ∧ URL.live
      (urls (clearAllImages
               (handleFileChange (Some [Samples.cat; Samples.hat]) initial).2).2)
    = ∅
  ∧ length (created (handleFileChange (Some [Samples.cat; Samples.hat]) initial).1)
    = 2.
Proof.
  destruct (add_then_clear_releases_every_preview_once
              initial [Samples.cat; Samples.hat])
    as (Hempty & Hlive & Hlength & _).
  - exists []. reflexivity.
  - split; [exact Hempty|]. split; [exact Hlive|exact Hlength].
Defined.

End Intake.

(** * The synthesis client, further: when it succeeds, what it reads and
    what it leaves on the console *)

Section SynthesisOutcome.
Import Js GeminiService.

Implicit Types (ai : Models) (prompt : string) (images : list ImagePart.t).
Implicit Types (parts : list Part.t) (part : Part.t).
Implicit Types (result : SynthesisResult.t) (response : GenerateContentResponse.t).

(** Either some part is usable, or the loop leaves the result as it is. *)
Lemma fold_visit_idle parts result :
  Exists (λ p, usable p = true) parts ∨ fold_left visit parts result = result.
Proof.
  revert result. induction parts as [|p parts IH]; intros result; [by right|].
  destruct (usable p) eqn:Hp; [left; by left|].
  simpl. rewrite (visit_unusable _ _ Hp).
  destruct (IH result) as [H|H]; [left; by right|by right].
Qed.

(** A field that holds something keeps holding something. *)
Lemma visit_populated result part : populated result → populated (visit result part).
Proof.
  unfold populated, visit. intros H.
  destruct (hasInlineData part); simpl; [by left|].
  destruct (truthy (Part.text part)) eqn:Ht; simpl; [by right|exact H].
Qed.

Lemma visit_usable result part : usable part = true → populated (visit result part).
Proof.
  unfold usable, populated, visit. intros H.
  destruct (hasInlineData part); simpl; [by left|].
  simpl in H. rewrite H. simpl. by right.
Qed.

Lemma fold_visit_populated parts result :
  populated result → populated (fold_left visit parts result).
Proof.
  revert result. induction parts as [|p parts IH]; intros result H; [exact H|].
  simpl. by apply IH, visit_populated.
Qed.

Lemma fold_visit_usable parts result :
  Exists (λ p, usable p = true) parts → populated (fold_left visit parts result).
Proof.
  intros Hex. revert result.
  induction Hex as [p parts Hp|p parts _ IH]; intros result; simpl.
  - by apply fold_visit_populated, visit_usable.
  - apply IH.
Qed.

Lemma checked_populated result : populated result → checked result = inr result.
Proof. intros [H|H]; [by apply checked_image|by apply checked_text]. Qed.

Lemma extract_inr response result :
  extract response = inr result →
  (firstParts response = None ∧ result = emptyResult)
  ∨ ∃ parts, firstParts response = Some parts
             ∧ result = fold_left visit parts emptyResult.
Proof.
  unfold extract, firstParts.
  destruct (GenerateContentResponse.candidates response) as [[|c cs]|];
    try (intros H; inversion H; by left).
  destruct (Candidate.content c) as [content|]; [|discriminate]. simpl.
  destruct (Content.parts content) as [parts|]; [|discriminate].
  intros H. inversion H. right. by exists parts.
Qed.

Lemma synthesizeImage_resolved_populated ai prompt images result :
  (synthesizeImage ai prompt images).2 = Resolved result → populated result.
Proof.
  unfold synthesizeImage, tryBlock.
  destruct (ai _) as [response|cause]; [|discriminate].
  destruct (extract response) as [cause|extracted]; [discriminate|].
  destruct (checked extracted) as [cause|final] eqn:Hchecked; [discriminate|].
  simpl. intros Hfinal. inversion Hfinal; subst final.
  by apply checked_inr in Hchecked as [-> H].
Qed.

(** X1.  [synthesizeImage] resolves exactly when the remote call resolves,
    the first candidate has a list of parts and one of these parts is usable
    (non-empty inline data, or non-empty text); the result is then what the
    loop leaves after the last part. *)
Theorem synthesizeImage_resolves_iff ai prompt images result :
  (synthesizeImage ai prompt images).2 = Resolved result
  ↔ ∃ response parts,
      ai (request prompt images) = Resolved response
      ∧ firstParts response = Some parts
      ∧ Exists (λ p, usable p = true) parts
      ∧ result = fold_left visit parts emptyResult.
Proof.
  split.
  - unfold synthesizeImage, tryBlock.
    destruct (ai _) as [response|cause] eqn:Hai; [|discriminate].
    destruct (extract response) as [cause|extracted] eqn:Hextract; [discriminate|].
    destruct (checked extracted) as [cause|final] eqn:Hchecked; [discriminate|].
    simpl. intros Hfinal. inversion Hfinal; subst final.
    apply checked_inr in Hchecked as [-> Hpopulated].
    apply extract_inr in Hextract as [[_ ->]|(parts & Hparts & ->)].
    { destruct Hpopulated; discriminate. }
    exists response, parts. repeat split; try done.
    destruct (fold_visit_idle parts emptyResult) as [Hex|Hidle]; [exact Hex|].
    rewrite Hidle in Hpopulated. destruct Hpopulated; discriminate.
  - intros (response & parts & Hai & Hparts & Hex & ->).
    rewrite (synthesizeImage_parts _ _ _ _ _ Hai Hparts).
    by rewrite (checked_populated _ (fold_visit_usable _ emptyResult Hex)).
Qed.

(** X2.  Only the first candidate is read: two responses with the same
    first candidate give the same effects and the same outcome, whatever
    candidates follow. *)
Theorem later_candidates_are_ignored
    ai ai' prompt images candidate others others' :
  ai (request prompt images)
  = Resolved (GenerateContentResponse.mk (Some (candidate :: others))) →
  ai' (request prompt images)
  = Resolved (GenerateContentResponse.mk (Some (candidate :: others'))) →
  synthesizeImage ai prompt images = synthesizeImage ai' prompt images.
Proof.
  intros Hai Hai'. unfold synthesizeImage, tryBlock. by rewrite Hai, Hai'.
Qed.

Lemma later_candidates_are_ignored_witness :
  synthesizeImage
    (λ _, Resolved (GenerateContentResponse.mk
                      (Some [Candidate.mk (Some (Content.mk (Some [Samples.png])));
                             Candidate.mk (Some (Content.mk (Some [Samples.jpeg])))])))
    "merge" []
  = synthesizeImage (Samples.answering [Samples.png]) "merge" [].
Proof.
  apply (later_candidates_are_ignored _ _ "merge" []
           (Candidate.mk (Some (Content.mk (Some [Samples.png]))))
           [Candidate.mk (Some (Content.mk (Some [Samples.jpeg])))] []);
    reflexivity.
Defined.

(** The image after the loop was there before or is the data URL of one of
    the parts. *)
Lemma fold_visit_image_source parts result url :
  SynthesisResult.imageUrl (fold_left visit parts result) = Some url →
  SynthesisResult.imageUrl result = Some url
  ∨ ∃ part blob payload,
      part ∈ parts ∧ Part.inlineData part = Some blob
      ∧ Blob_.data blob = Some payload ∧ payload ≠ ""
      ∧ url = "data:" +:+ interpolate (Blob_.mimeType blob)
                +:+ ";base64," +:+ payload.
Proof.
  revert result. induction parts as [|p parts IH]; intros result Hurl; [by left|].
  simpl in Hurl. apply IH in Hurl as [Hurl|(part & blob & payload & Hin & H)].
  - unfold visit in Hurl. destruct (hasInlineData p) eqn:Hp.
    + right. unfold hasInlineData in Hp.
      destruct (Part.inlineData p) as [blob|] eqn:Hblob; [|discriminate].
      destruct (Blob_.data blob) as [payload|] eqn:Hdata; [|discriminate].
      exists p, blob, payload. split; [left|].
      split; [exact Hblob|]. split; [exact Hdata|].
      split; [by apply truthy_Some|].
      simpl in Hurl. rewrite Hdata in Hurl. simpl in Hurl. by inversion Hurl.
    + left. by destruct (truthy (Part.text p)).
  - right. exists part, blob, payload. split; [by right|exact H].
Qed.

(** X3.  Every [imageUrl] that [synthesizeImage] returns is built from one
    part of the first candidate that carries a non-empty payload: it is
    [data:], that part's media type as a template literal prints it, then
    [;base64,], then that payload, unchanged. *)
Theorem imageUrl_is_built_from_a_part
    ai prompt images response parts result url :
  ai (request prompt images) = Resolved response →
  firstParts response = Some parts →
  (synthesizeImage ai prompt images).2 = Resolved result →
  SynthesisResult.imageUrl result = Some url →
  ∃ part blob payload,
    part ∈ parts ∧ Part.inlineData part = Some blob
    ∧ Blob_.data blob = Some payload ∧ payload ≠ ""
    ∧ url = "data:" +:+ interpolate (Blob_.mimeType blob)
              +:+ ";base64," +:+ payload.
Proof.
  intros Hai Hparts.
  rewrite (synthesizeImage_parts _ _ _ _ _ Hai Hparts).
  destruct (checked _) as [cause|final] eqn:Hchecked; [discriminate|].
  simpl. intros Hfinal Hurl. inversion Hfinal; subst final.
  apply checked_inr in Hchecked as [-> _].
  apply fold_visit_image_source in Hurl as [Hurl|Hsource]; [discriminate|].
  exact Hsource.
Qed.

Lemma imageUrl_is_built_from_a_part_witness :
  ∃ part blob payload,
    part ∈ [Samples.first; Samples.png]
    ∧ Part.inlineData part = Some blob
    ∧ Blob_.data blob = Some payload ∧ payload ≠ ""
    ∧ "data:image/png;base64,AAAA"
      = "data:" +:+ interpolate (Blob_.mimeType blob) +:+ ";base64," +:+ payload.
Proof.
  apply (imageUrl_is_built_from_a_part
           (Samples.answering [Samples.first; Samples.png]) "merge" []
           _ _ (SynthesisResult.mk (Some "data:image/png;base64,AAAA") (Some "first"))
           "data:image/png;base64,AAAA" eq_refl eq_refl eq_refl eq_refl).
Defined.

(** X4.  A part with a payload and no media type is taken all the same:
    when it is the last part with inline data, the promise resolves and the
    image URL spells the missing type [undefined]. *)
Theorem missing_media_type_is_spelled_undefined
    ai prompt images response front part back payload :
  ai (request prompt images) = Resolved response →
  firstParts response = Some (front ++ part :: back) →
  Part.inlineData part = Some (Blob_.mk None (Some payload)) →
  payload ≠ "" →
  Forall (λ p, hasInlineData p = false) back →
  ∃ result,
    (synthesizeImage ai prompt images).2 = Resolved result
    ∧ SynthesisResult.imageUrl result
      = Some ("data:undefined;base64," +:+ payload).
Proof.
  intros Hai Hparts Hinline Hpayload Hback.
  rewrite (synthesizeImage_parts _ _ _ _ _ Hai Hparts).
  rewrite fold_left_app. simpl.
  assert (Hhas : hasInlineData part = true).
  { unfold hasInlineData. rewrite Hinline. simpl. by apply truthy_Some. }
  set (final := fold_left visit back _).
  assert (Himage :
    SynthesisResult.imageUrl final = Some ("data:undefined;base64," +:+ payload)).
  { subst final.
    rewrite (fold_visit_keeps_image _ _ Hback), (visit_image _ _ Hhas).
    by rewrite Hinline. }
  rewrite checked_image by (rewrite Himage; reflexivity).
  eexists. split; [reflexivity|exact Himage].
Qed.

Lemma missing_media_type_is_spelled_undefined_witness :
  ∃ result,
    (synthesizeImage (Samples.answering [Samples.png; Samples.untyped; Samples.first])
       "merge" []).2 = Resolved result
    ∧ SynthesisResult.imageUrl result = Some ("data:undefined;base64," +:+ "CCCC").
Proof.
  apply (missing_media_type_is_spelled_undefined
           (Samples.answering [Samples.png; Samples.untyped; Samples.first])
           "merge" [] _ [Samples.png] Samples.untyped [Samples.first] "CCCC"
           eq_refl eq_refl eq_refl).
  - discriminate.
  - repeat constructor.
Defined.

Lemma synthesizeImage_cases ai prompt images :
  (∃ result,
     synthesizeImage ai prompt images
     = ([GenerateContent (request prompt images)], Resolved result))
  ∨ (∃ cause,
       synthesizeImage ai prompt images
       = ([GenerateContent (request prompt images);
           ConsoleError "Error calling Gemini API:" cause],
          Rejected (Error failureMessage))).
Proof.
  unfold synthesizeImage, tryBlock.
  destruct (ai _) as [response|cause]; [|right; by eexists].
  destruct (extract response) as [cause|extracted]; [right; by eexists|].
  destruct (checked extracted) as [cause|final]; [right|left]; by eexists.
Qed.

(** X5.  What a call leaves behind: always the one request first; nothing
    else when the promise resolves; when it rejects, one [console.error] with
    the cause, which is the remote call's own exception, or a [TypeError]
    (the first candidate has no list of parts), or the no-content error;
    the rejection itself is the fixed generic error in all three cases. *)
Theorem console_error_exactly_on_rejection ai prompt images :
  (∃ result,
     synthesizeImage ai prompt images
     = ([GenerateContent (request prompt images)], Resolved result))
  ∨ (∃ cause,
       synthesizeImage ai prompt images
       = ([GenerateContent (request prompt images);
           ConsoleError "Error calling Gemini API:" cause],
          Rejected (Error failureMessage))
       ∧ (ai (request prompt images) = Rejected cause
          ∨ (∃ response message,
               ai (request prompt images) = Resolved response
               ∧ partsMissing response ∧ cause = TypeError message)
          ∨ (∃ response,
               ai (request prompt images) = Resolved response
               ∧ cause = Error noContentMessage))).
Proof.
  unfold synthesizeImage, tryBlock.
  destruct (ai _) as [response|cause] eqn:Hai.
  2: { right. exists cause. split; [reflexivity|by left]. }
  destruct (extract response) as [cause|extracted] eqn:Hextract.
  { right. exists cause. split; [reflexivity|]. right. left.
    unfold extract in Hextract. destruct response as [candidates].
    destruct candidates as [[|[content] others]|]; try discriminate.
    destruct content as [[parts]|]; [destruct parts; [discriminate|]|];
      simpl in Hextract; inversion Hextract; eexists; eexists;
      (split; [reflexivity|]); (split; [constructor|reflexivity]). }
  unfold checked.
  destruct (_ && _)%bool; [|left; by eexists].
  right. eexists. split; [reflexivity|]. right. right. by eexists.
Qed.

End SynthesisOutcome.

(** * The image intake, further: order, lifetime of the previews, and how
    the handlers compose *)

Section IntakeLifetime.
Import Js Browser App.

Implicit Types (w : world) (s : state) (file : File.t) (index : Z).
Implicit Types (r : URL.registry) (effects : list effect).

Lemma setImageFiles_same s : setImageFiles (imageFiles s) s = s.
Proof. by destruct s. Qed.

(** A URL minted now differs from every URL that is live. *)
Lemma live_urls_are_older w n :
  consistent w → (URL.minted (urls w) ≤ n)%nat →
  URL.objectURL n ∉ URL.live (urls w).
Proof.
  intros [_ Hlive Hminted] Hn Hin.
  apply Hlive, Hminted in Hin as (m & Hm & Heq).
  apply objectURL_inj in Heq. lia.
Qed.

(** X6.  In every world the page can be in, a selection of files is
    appended in the order of the selection: the entries already there keep
    their index, the i-th selected file becomes the entry at the old length
    plus i, with a preview that was not live before and is live now; nothing
    is revoked and the prompt is not touched. *)
Theorem handleFileChange_appends_in_order w files :
  reachable w →
  let added := handleFileChange (Some files) w in
  length (imageFiles (ui added.2))
  = (length (imageFiles (ui w)) + length files)%nat
  ∧ (∀ (i : nat) entry,
       imageFiles (ui w) !! i = Some entry →
       imageFiles (ui added.2) !! i = Some entry)
  ∧ (∀ (i : nat) file,
       files !! i = Some file →
       ∃ preview,
         imageFiles (ui added.2) !! (length (imageFiles (ui w)) + i)%nat
         = Some (ImageFile.mk file preview)
         ∧ (preview ∉ URL.live (urls w))
         ∧ preview ∈ URL.live (urls added.2))
  ∧ revoked added.1 = []
  ∧ prompt (ui added.2) = prompt (ui w).
Proof.
  intros Hreach added. pose proof (reachable_consistent _ Hreach) as Hw.
  subst added. unfold handleFileChange.
  destruct (filePreviews_spec files (urls w)) as (Hfiles & Hpreviews & _ & Hlive).
  destruct (filePreviews files (urls w)) as [entries r]. simpl in *.
  assert (Hlength : length entries = length files)
    by (by rewrite <- Hfiles, length_map).
  split; [by rewrite length_app, Hlength|].
  split; [intros i entry Hi; by apply lookup_app_l_Some|].
  split; [|split; [apply revoked_created|reflexivity]].
  intros i file Hi.
  rewrite <- Hfiles in Hi. apply list_lookup_fmap_Some_1 in Hi as (entry & -> & Hentry).
  exists (ImageFile.preview entry).
  split; [rewrite lookup_app_r by lia; replace (_ + i - _)%nat with i by lia;
          by destruct entry|].
  assert (Hin : ImageFile.preview entry ∈ map ImageFile.preview entries).
  { apply list_elem_of_lookup. exists i. by rewrite list_lookup_fmap, Hentry. }
  split; [|apply Hlive; by right].
  rewrite Hpreviews in Hin. apply list_elem_of_fmap in Hin as (n & -> & Hn).
  apply elem_of_seq in Hn. apply live_urls_are_older; [exact Hw|lia].
Qed.

Lemma handleFileChange_appends_in_order_witness :
  length (imageFiles
            (ui (handleFileChange (Some [Samples.cat; Samples.hat]) initial).2))
  = (length (imageFiles (ui initial)) + 2)%nat.
Proof.
  destruct (handleFileChange_appends_in_order initial [Samples.cat; Samples.hat])
    as (Hlength & _).
  - exists []. reflexivity.
  - exact Hlength.
Defined.

(** X7.  The lifetime invariant.  In every world the page can be in, the
    previews of the entries are pairwise distinct, an object URL is live
    exactly when it is the preview of an entry, and there are as many live
    object URLs as entries. *)
Theorem live_urls_are_the_previews w :
  reachable w →
  NoDup (previews w)
  ∧ (∀ url, url ∈ URL.live (urls w) ↔ url ∈ previews w)
  ∧ size (URL.live (urls w)) = length (imageFiles (ui w)).
Proof.
  intros Hreach. destruct (reachable_consistent _ Hreach) as [Hdistinct Hlive _].
  split; [exact Hdistinct|]. split; [exact Hlive|].
  assert (Hset : URL.live (urls w) = list_to_set (previews w)).
  { apply set_eq. intros url. by rewrite Hlive, elem_of_list_to_set. }
  rewrite Hset, (size_list_to_set _ Hdistinct). unfold previews. apply length_map.
Qed.

Lemma live_urls_are_the_previews_witness :
  size (URL.live
          (urls (run [FileChange (Some [Samples.cat; Samples.hat]); RemoveImage 0]
                     initial).2))
  = length (imageFiles
              (ui (run [FileChange (Some [Samples.cat; Samples.hat]); RemoveImage 0]
                       initial).2)).
Proof.
  apply (live_urls_are_the_previews
           (run [FileChange (Some [Samples.cat; Samples.hat]); RemoveImage 0]
                initial).2).
  exists [FileChange (Some [Samples.cat; Samples.hat]); RemoveImage 0]. reflexivity.
Defined.

(** *** Every run is orderly *)

Lemma created_service (effects : list GeminiService.effect) :
  created (map Service effects) = [] ∧ revoked (map Service effects) = [].
Proof. induction effects as [|e effects [IH1 IH2]]; by simpl. Qed.

Lemma handleSubmit_no_urls (ai : GeminiService.Models) s :
  created (handleSubmit ai s).1 = [] ∧ revoked (handleSubmit ai s).1 = [].
Proof.
  unfold handleSubmit.
  destruct (_ || _)%bool; [by split|].
  destruct (promiseAll _) as [imageParts|err]; [|by split].
  destruct (GeminiService.synthesizeImage _ _ _) as [effects [result|err]];
    simpl; unfold created, revoked; rewrite ?omap_app;
    fold (created (map Service effects)) (revoked (map Service effects));
    destruct (created_service effects) as [-> ->]; by split.
Qed.

Lemma orderly_idle r r' :
  URL.minted r' = URL.minted r → URL.live r' = URL.live r → orderly r [] r'.
Proof.
  intros Hminted Hlive. unfold orderly. simpl. rewrite Hminted, Hlive.
  split; [intros url H; by apply elem_of_nil in H|].
  split; [constructor|]. split; [constructor|].
  split; [intros url H; by apply elem_of_nil in H|].
  split; [|lia]. intros url. rewrite !elem_of_nil. tauto.
Qed.

Lemma perform_orderly a w :
  consistent w → orderly (urls w) (perform a w).1 (urls (perform a w).2).
Proof.
  intros Hw. destruct a as [[files|]|index| |value|ai]; simpl.
  - (* a selection of files *)
    destruct (filePreviews_spec files (urls w)) as (_ & Hpreviews & Hminted & Hlive).
    destruct (filePreviews files (urls w)) as [entries r]. simpl in *.
    unfold orderly. rewrite created_previews, revoked_created, Hpreviews.
    split.
    { intros url Hurl. apply list_elem_of_fmap in Hurl as (n & -> & Hn).
      apply elem_of_seq in Hn. exists n. split; [lia|done]. }
    split.
    { apply NoDup_fmap_2; [|apply NoDup_seq]. intros n m. apply objectURL_inj. }
    split; [constructor|].
    split; [intros url H; by apply elem_of_nil in H|].
    split; [|lia].
    intros url. rewrite Hlive, Hpreviews, elem_of_nil. tauto.
  - by apply orderly_idle.
  - (* removing one entry *)
    unfold removeImage.
    destruct (at_ (imageFiles (ui w)) index) as [entry|] eqn:Hat;
      [|by apply orderly_idle].
    apply at_Some in Hat as [_ Hat]. simpl. unfold orderly. simpl.
    assert (Hin : ImageFile.preview entry ∈ URL.live (urls w)).
    { apply (previews_live _ Hw). unfold previews.
      apply list_elem_of_lookup. exists (Z.to_nat index).
      by rewrite list_lookup_fmap, Hat. }
    split; [intros url H; by apply elem_of_nil in H|].
    split; [constructor|].
    split; [apply NoDup_singleton|].
    split; [intros url Hurl; apply list_elem_of_singleton in Hurl as ->; by left|].
    split; [|lia].
    intros url.
    rewrite elem_of_difference, elem_of_singleton, list_elem_of_singleton, elem_of_nil.
    tauto.
  - (* clearing *)
    unfold orderly. simpl. rewrite revoked_revocations, revoke_all_minted.
    assert (Hnone : created (map RevokeObjectURL
                               (map ImageFile.preview (imageFiles (ui w)))) = []).
    { induction (map ImageFile.preview (imageFiles (ui w))) as [|u l IH];
        [done|exact IH]. }
    rewrite Hnone.
    split; [intros url H; by apply elem_of_nil in H|].
    split; [constructor|].
    split; [apply (previews_distinct _ Hw)|].
    split; [intros url Hurl; left; by apply (previews_live _ Hw)|].
    split; [|lia].
    intros url. rewrite revoke_all_live, elem_of_nil. tauto.
  - by apply orderly_idle.
  - pose proof (handleSubmit_no_urls ai (ui w)) as [Hcreated Hrevoked].
    destruct (handleSubmit ai (ui w)) as [effects s]. simpl in *.
    unfold orderly. rewrite Hcreated, Hrevoked.
    split; [intros url H; by apply elem_of_nil in H|].
    split; [constructor|]. split; [constructor|].
    split; [intros url H; by apply elem_of_nil in H|].
    split; [|lia]. intros url. rewrite !elem_of_nil. tauto.
Qed.

Lemma orderly_trans w r1 r2 effects1 effects2 :
  consistent w →
  orderly (urls w) effects1 r1 → orderly r1 effects2 r2 →
  orderly (urls w) (effects1 ++ effects2) r2.
Proof.
  intros Hw (Hfresh1 & Hc1 & Hr1 & Hfrom1 & Hlive1 & Hle1)
            (Hfresh2 & Hc2 & Hr2 & Hfrom2 & Hlive2 & Hle2).
  assert (Hold : ∀ url, url ∈ revoked effects1 →
            ∃ n : nat, (n < URL.minted r1)%nat ∧ url = URL.objectURL n).
  { intros url Hurl. apply Hfrom1 in Hurl as [Hurl|Hurl].
    - apply (previews_live _ Hw), (previews_minted _ Hw) in Hurl as (n & Hn & ->).
      exists n. split; [lia|done].
    - apply Hfresh1 in Hurl as (n & Hn & ->). exists n. split; [lia|done]. }
  assert (Hapart : ∀ url, url ∈ revoked effects1 → url ∉ created effects2).
  { intros url Hurl1 Hurl2. apply Hold in Hurl1 as (n & Hn & ->).
    apply Hfresh2 in Hurl2 as (m & Hm & Heq). apply objectURL_inj in Heq. lia. }
  unfold orderly, created, revoked. rewrite !omap_app.
  fold (created effects1) (created effects2) (revoked effects1) (revoked effects2).
  split.
  { intros url. rewrite elem_of_app. intros [Hurl|Hurl].
    - apply Hfresh1 in Hurl as (n & Hn & ->). exists n. split; [lia|done].
    - apply Hfresh2 in Hurl as (n & Hn & ->). exists n. split; [lia|done]. }
  split.
  { apply NoDup_app. split; [exact Hc1|]. split; [|exact Hc2].
    intros url Hurl1 Hurl2.
    apply Hfresh1 in Hurl1 as (n & Hn & ->).
    apply Hfresh2 in Hurl2 as (m & Hm & Heq). apply objectURL_inj in Heq. lia. }
  split.
  { apply NoDup_app. split; [exact Hr1|]. split; [|exact Hr2].
    intros url Hurl1 Hurl2. apply Hfrom2 in Hurl2 as [Hurl2|Hurl2].
    - apply Hlive1 in Hurl2 as [_ Hnot]. exact (Hnot Hurl1).
    - exact (Hapart url Hurl1 Hurl2). }
  split.
  { intros url. rewrite !elem_of_app. intros [Hurl|Hurl].
    - apply Hfrom1 in Hurl. tauto.
    - apply Hfrom2 in Hurl as [Hurl|Hurl]; [|tauto].
      apply Hlive1 in Hurl. tauto. }
  split; [|lia].
  intros url. rewrite Hlive2, Hlive1, !elem_of_app.
  pose proof (Hapart url). tauto.
Qed.

Lemma run_orderly actions w :
  consistent w → orderly (urls w) (run actions w).1 (urls (run actions w).2).
Proof.
  revert w. induction actions as [|a actions IH]; intros w Hw.
  - by apply orderly_idle.
  - simpl. pose proof (perform_orderly a w Hw) as H1.
    pose proof (perform_consistent a w Hw) as Hw1.
    destruct (perform a w) as [effects1 w1]. simpl in *.
    specialize (IH w1 Hw1).
    destruct (run actions w1) as [effects2 w2]. simpl in *.
    by apply orderly_trans with (urls w1).
Qed.

(** X8.  Whatever the user does, in whatever order, starting from the
    freshly loaded page: no object URL is created twice, none is revoked
    twice, only created ones are revoked, and the object URLs live at the end
    are exactly the created ones that were not revoked. *)
Theorem object_urls_are_revoked_at_most_once actions :
  NoDup (created (run actions initial).1)
  ∧ NoDup (revoked (run actions initial).1)
  ∧ (∀ url, url ∈ revoked (run actions initial).1 →
       url ∈ created (run actions initial).1)
  ∧ (∀ url, url ∈ URL.live (urls (run actions initial).2)
            ↔ url ∈ created (run actions initial).1
              ∧ url ∉ revoked (run actions initial).1).
Proof.
  destruct (run_orderly actions initial consistent_initial)
    as (_ & Hc & Hr & Hfrom & Hlive & _).
  split; [exact Hc|]. split; [exact Hr|]. split.
  - intros url Hurl. apply Hfrom in Hurl as [Hurl|Hurl]; [|exact Hurl].
    simpl in Hurl. by apply elem_of_empty in Hurl.
  - intros url. rewrite Hlive. simpl. rewrite elem_of_empty. tauto.
Qed.

(** *** How the handlers compose *)

(** X9.  Adding one file and removing the entry it became (the last one)
    undoes the addition: the handler ends normally, the component's state is
    the one before the addition, the same object URLs are live as before, and
    the URL that was created is the one that was revoked. *)
Theorem adding_then_removing_the_last_restores w file :
  reachable w →
  let added := handleFileChange (Some [file]) w in
  let removed :=
    removeImage (Z.of_nat (length (imageFiles (ui w)))) added.2 in
  removed.2 = Normal
  ∧ ui removed.1.2 = ui w
  ∧ URL.live (urls removed.1.2) = URL.live (urls w)
  ∧ revoked removed.1.1 = created added.1.
Proof.
  intros Hreach added removed. pose proof (reachable_consistent _ Hreach) as Hw.
  pose proof (live_urls_are_older w _ Hw (Nat.le_refl _)) as Hfresh.
  subst removed added. simpl. unfold removeImage. simpl.
  set (entry := ImageFile.mk file (URL.objectURL (URL.minted (urls w)))).
  assert (Hat : at_ (imageFiles (ui w) ++ [entry])
                    (Z.of_nat (length (imageFiles (ui w)))) = Some entry).
  { apply at_Some. split; [lia|]. rewrite Nat2Z.id.
    by rewrite lookup_app_r, Nat.sub_diag. }
  rewrite Hat, Nat2Z.id. simpl.
  split; [reflexivity|]. split; [|split; [|reflexivity]].
  - rewrite delete_middle, app_nil_r. by destruct (ui w).
  - apply set_eq. intros url.
    rewrite elem_of_difference, elem_of_union, elem_of_singleton.
    split; [tauto|]. intros Hurl. split; [by right|]. by intros ->.
Qed.

Lemma adding_then_removing_the_last_restores_witness :
  ui (removeImage (Z.of_nat (length (imageFiles (ui initial))))
        (handleFileChange (Some [Samples.cat]) initial).2).1.2
  = ui initial.
Proof.
  destruct (adding_then_removing_the_last_restores initial Samples.cat)
    as (_ & Hui & _).
  - exists []. reflexivity.
  - exact Hui.
Defined.

(** X10.  Every index a rendered remove button passes to [removeImage] is
    an index of the collection: the handler ends normally, having revoked one
    preview and shortened the collection by one.  With an empty collection no
    such button is rendered. *)
Theorem remove_buttons_pass_valid_indices w index :
  index ∈ removeButtons (ui w) →
  ∃ entry w',
    removeImage index w
    = ([RevokeObjectURL (ImageFile.preview entry)], w', Normal)
    ∧ imageFiles (ui w) !! Z.to_nat index = Some entry
    ∧ length (imageFiles (ui w')) = (length (imageFiles (ui w)) - 1)%nat.
Proof.
  unfold removeButtons. intros Hin.
  destruct (Nat.ltb 0 (length (imageFiles (ui w)))); [|by apply elem_of_nil in Hin].
  apply list_elem_of_fmap in Hin as (i & -> & Hi). apply elem_of_seq in Hi.
  destruct (lookup_lt_is_Some_2 (imageFiles (ui w)) i) as [entry Hentry]; [lia|].
  exists entry. eexists. unfold removeImage.
  rewrite (proj2 (at_Some _ _ _)) by (split; [lia|by rewrite Nat2Z.id]).
  rewrite Nat2Z.id. split; [reflexivity|]. split; [exact Hentry|].
  simpl. apply length_delete. by exists entry.
Qed.

Lemma remove_buttons_pass_valid_indices_witness :
  ∃ entry w',
    removeImage 1 (handleFileChange (Some [Samples.cat; Samples.hat]) initial).2
    = ([RevokeObjectURL (ImageFile.preview entry)], w', Normal)
    ∧ imageFiles (ui (handleFileChange (Some [Samples.cat; Samples.hat]) initial).2)
        !! Z.to_nat 1 = Some entry
    ∧ length (imageFiles (ui w'))
      = (length (imageFiles
                   (ui (handleFileChange (Some [Samples.cat; Samples.hat]) initial).2))
         - 1)%nat.
Proof.
  apply (remove_buttons_pass_valid_indices
           (handleFileChange (Some [Samples.cat; Samples.hat]) initial).2 1).
  simpl. right. left.
Defined.

Lemma run_remove_first (l : list ImageFile.t) s r :
  imageFiles s = l →
  run (replicate (length l) (RemoveImage 0)) (mkWorld s r)
  = (map RevokeObjectURL (map ImageFile.preview l),
     mkWorld (setImageFiles [] s)
             (fold_left (λ r url, URL.revokeObjectURL url r)
                        (map ImageFile.preview l) r)).
Proof.
  revert s r. induction l as [|entry l IH]; intros s r Hs.
  - simpl. f_equal. f_equal. rewrite <- Hs. symmetry. apply setImageFiles_same.
  - change (replicate (length (entry :: l)) (RemoveImage 0))
      with (RemoveImage 0 :: replicate (length l) (RemoveImage 0)).
    cbn [run perform]. unfold removeImage. cbn [ui urls]. rewrite Hs.
    unfold at_. change (Z.to_nat 0) with 0%nat. simpl.
    rewrite (IH (setImageFiles l s) (URL.revokeObjectURL (ImageFile.preview entry) r))
      by reflexivity.
    reflexivity.
Qed.

(** X11.  Removing the first entry as many times as there are entries does
    what [clearAllImages] does: the same revocations in the same order, and
    the same world at the end. *)
Theorem removing_every_entry_is_clearing w :
  run (replicate (length (imageFiles (ui w))) (RemoveImage 0)) w
  = clearAllImages w.
Proof.
  destruct w as [s r]. unfold clearAllImages. cbn [ui urls].
  by apply run_remove_first.
Qed.

End IntakeLifetime.

(** * The submission: what [handleSubmit] sends, shows and leaves alone *)

Section Submission.
Import Js Browser App.

Implicit Types (ai : GeminiService.Models) (s : state) (entry : ImageFile.t).

Lemma guard_passes s :
  imageFiles s ≠ [] → trim (prompt s) ≠ "" →
  (Nat.eqb (length (imageFiles s)) 0
   || negb (truthy (Some (trim (prompt s)))))%bool = false.
Proof.
  intros Hfiles Hprompt. apply orb_false_iff. split.
  - apply Nat.eqb_neq. intros H. by apply length_zero_iff_nil in H.
  - apply negb_false_iff. by apply truthy_Some.
Qed.

Lemma errorMessage_truthy err : truthy (Some (errorMessage err)) = true.
Proof. reflexivity. Qed.

(** The two messages differ in their tenth byte. *)
Lemma errorMessage_not_validation err : errorMessage err ≠ validationMessage.
Proof.
  intros H. apply (f_equal (String.get 9)) in H. vm_compute in H. discriminate.
Qed.

Lemma promiseAll_Rejected {A} (ps : list (settled A)) e :
  promiseAll ps = Rejected e → Rejected e ∈ ps.
Proof.
  induction ps as [|[a|e'] ps IH]; simpl; [discriminate| |].
  - destruct (promiseAll ps) as [values|e'']; [discriminate|].
    intros H. right. by apply IH.
  - intros H. inversion H. left.
Qed.

Lemma promiseAll_Resolved {A} (ps : list (settled A)) values :
  promiseAll ps = Resolved values → ps = map Resolved values.
Proof.
  revert values. induction ps as [|[a|e] ps IH]; intros values; simpl.
  - intros H. by inversion H.
  - destruct (promiseAll ps) as [rest|e]; [|discriminate].
    intros H. inversion H. simpl. f_equal. by apply IH.
  - discriminate.
Qed.

(** A read that fails is the only way for the encoding of an entry to fail,
    and what it fails with is the reader's event. *)
Lemma encodeEntry_Rejected entry e :
  encodeEntry entry = Rejected e →
  e = ProgressEvent ∧ File.content (ImageFile.file entry) = Unreadable.
Proof.
  unfold encodeEntry, fileToBase64, readAsDataURL.
  destruct (File.content (ImageFile.file entry)); [discriminate|].
  intros H. by inversion H.
Qed.

Lemma fileToBase64_readable (file : File.t) bytes :
  File.content file = Readable bytes →
  occurs "," (File.type file) = false →
  fileToBase64 file = Resolved (Some (Base64.encode bytes)).
Proof.
  intros Hcontent Htype.
  destruct (readAsDataURL_shape _ _ Hcontent Htype) as (prefix & Hread & Hprefix).
  unfold fileToBase64. rewrite Hread, (split_at_first _ _ _ Hprefix).
  by rewrite (split_without _ _ (encode_no_comma bytes)).
Qed.

(** The encodings of readable entries, awaited together. *)
Lemma encode_all_readable (l : list ImageFile.t) :
  (∀ entry, entry ∈ l →
     ∃ bytes, File.content (ImageFile.file entry) = Readable bytes
              ∧ occurs "," (File.type (ImageFile.file entry)) = false) →
  ∃ imageParts,
    promiseAll (map encodeEntry l) = Resolved imageParts
    ∧ length imageParts = length l
    ∧ ∀ (i : nat) entry bytes,
        l !! i = Some entry →
        File.content (ImageFile.file entry) = Readable bytes →
        imageParts !! i
        = Some (GeminiService.ImagePart.mk
                  (File.type (ImageFile.file entry))
                  (Some (Base64.encode bytes))).
Proof.
  induction l as [|entry l IH]; intros Hall.
  - exists []. repeat split. intros i entry bytes Hi. discriminate.
  - destruct IH as (imageParts & Hrest & Hlength & Hparts).
    { intros e He. apply Hall. by right. }
    destruct (Hall entry) as (bytes & Hcontent & Htype); [left|].
    exists (GeminiService.ImagePart.mk (File.type (ImageFile.file entry))
              (Some (Base64.encode bytes)) :: imageParts).
    split; [|split].
    + simpl. unfold encodeEntry at 1.
      by rewrite (fileToBase64_readable _ _ Hcontent Htype), Hrest.
    + simpl. by rewrite Hlength.
    + intros [|i] e b Hi Hb; simpl in *.
      * inversion Hi; subst e. rewrite Hcontent in Hb. by inversion Hb.
      * by apply Hparts.
Qed.

Lemma sent_service (effects : list GeminiService.effect) :
  sent (map Service effects) = GeminiService.requests effects.
Proof.
  induction effects as [|[request|label cause] effects IH]; simpl; [done| |].
  - f_equal. exact IH.
  - exact IH.
Qed.

(** What [handleSubmit] does once its guard is passed, by the outcome of the
    encodings and of the service. *)
Lemma handleSubmit_proceeds ai s :
  imageFiles s ≠ [] → trim (prompt s) ≠ "" →
  let s1 :=
    setGeneratedText None
      (setGeneratedImage None (setError None (setIsLoading true s))) in
  handleSubmit ai s
  = match promiseAll (map encodeEntry (imageFiles s)) with
    | Rejected err =>
        ([ConsoleError err],
         setIsLoading false (setError (Some (errorMessage err)) s1))
    | Resolved imageParts =>
        match GeminiService.synthesizeImage ai (prompt s) imageParts with
        | (effects, Resolved result) =>
            (map Service effects,
             setIsLoading false
               (setGeneratedText (GeminiService.SynthesisResult.text result)
                  (setGeneratedImage
                     (GeminiService.SynthesisResult.imageUrl result) s1)))
        | (effects, Rejected err) =>
            (map Service effects ++ [ConsoleError err],
             setIsLoading false (setError (Some (errorMessage err)) s1))
        end
    end.
Proof.
  intros Hfiles Hprompt. unfold handleSubmit.
  by rewrite (guard_passes _ Hfiles Hprompt).
Qed.

(** X12.  When the submit button is enabled there is an image and the
    prompt is not blank, so [handleSubmit] passes its own guard: the
    validation message cannot be the outcome of a click, and the submission
    ends with the loading flag off. *)
Theorem enabled_submit_passes_validation ai s :
  submitDisabled s = false →
  imageFiles s ≠ [] ∧ trim (prompt s) ≠ ""
  ∧ error (handleSubmit ai s).2 ≠ Some validationMessage
  ∧ isLoading (handleSubmit ai s).2 = false.
Proof.
  unfold submitDisabled. rewrite !orb_false_iff, negb_false_iff.
  intros [[_ Hfiles] Hprompt].
  apply Nat.eqb_neq in Hfiles. apply truthy_Some in Hprompt.
  assert (Hnonempty : imageFiles s ≠ []) by (intros H; by rewrite H in Hfiles).
  split; [exact Hnonempty|]. split; [exact Hprompt|].
  rewrite (handleSubmit_proceeds ai s Hnonempty Hprompt).
  assert (Hdiffers : ∀ err, Some (errorMessage err) ≠ Some validationMessage).
  { intros err H. apply (errorMessage_not_validation err). congruence. }
  destruct (promiseAll _) as [imageParts|err]; simpl.
  - destruct (GeminiService.synthesizeImage _ _ _) as [effects [result|err]];
      simpl; (split; [|reflexivity]); [discriminate|apply Hdiffers].
  - split; [apply Hdiffers|reflexivity].
Qed.

Lemma enabled_submit_passes_validation_witness :
  error (handleSubmit Samples.offline
           (setPrompt "merge"
              (ui (handleFileChange (Some [Samples.cat]) initial).2))).2
  ≠ Some validationMessage.
Proof.
  apply (enabled_submit_passes_validation Samples.offline
           (setPrompt "merge"
              (ui (handleFileChange (Some [Samples.cat]) initial).2))).
  reflexivity.
Defined.

(** X13.  A submission that passes the guard ends with the loading flag
    off and shows either the result panel or the error box, never both and
    never neither: with a result there is no error, and with an error the
    image and the text of an earlier result are gone. *)
Theorem submission_shows_result_or_error ai s :
  imageFiles s ≠ [] → trim (prompt s) ≠ "" →
  isLoading (handleSubmit ai s).2 = false
  ∧ ((showsResult (handleSubmit ai s).2 = true
      ∧ showsError (handleSubmit ai s).2 = false
      ∧ error (handleSubmit ai s).2 = None)
     ∨ (showsError (handleSubmit ai s).2 = true
        ∧ showsResult (handleSubmit ai s).2 = false
        ∧ generatedImage (handleSubmit ai s).2 = None
        ∧ generatedText (handleSubmit ai s).2 = None)).
Proof.
  intros Hfiles Hprompt. rewrite (handleSubmit_proceeds ai s Hfiles Hprompt).
  destruct (promiseAll _) as [imageParts|err]; simpl.
  - destruct (GeminiService.synthesizeImage _ _ _) as [effects [result|err]] eqn:Hcall;
      simpl; (split; [reflexivity|]).
    + left. unfold showsResult, showsError. simpl.
      assert (Hresult : GeminiService.populated result).
      { apply (synthesizeImage_resolved_populated ai (prompt s) imageParts).
        by rewrite Hcall. }
      destruct Hresult as [-> | ->]; by rewrite ?orb_true_r.
    + right. by unfold showsResult, showsError.
  - split; [reflexivity|]. right. by unfold showsResult, showsError.
Qed.

Lemma submission_shows_result_or_error_witness :
  isLoading
    (handleSubmit (Samples.answering [Samples.png])
       (setPrompt "merge"
          (ui (handleFileChange (Some [Samples.cat]) initial).2))).2
  = false.
Proof.
  destruct (submission_shows_result_or_error
              (Samples.answering [Samples.png])
              (setPrompt "merge"
                 (ui (handleFileChange (Some [Samples.cat]) initial).2)))
    as [Hloading _].
  - discriminate.
  - discriminate.
  - exact Hloading.
Defined.

(** X14.  One unreadable file aborts the whole submission before anything
    is sent: the only effect is the [console.error] of the reader's event,
    no request goes out, an earlier result is cleared, and, the event having
    no [message], the text shown to the user ends in [undefined]. *)
Theorem unreadable_file_aborts_submission ai s entry :
  trim (prompt s) ≠ "" →
  entry ∈ imageFiles s →
  File.content (ImageFile.file entry) = Unreadable →
  (handleSubmit ai s).1 = [ConsoleError ProgressEvent]
  ∧ sent (handleSubmit ai s).1 = []
  ∧ error (handleSubmit ai s).2
    = Some "이미지 생성 중 오류가 발생했습니다: undefined"
  ∧ generatedImage (handleSubmit ai s).2 = None
  ∧ generatedText (handleSubmit ai s).2 = None
  ∧ isLoading (handleSubmit ai s).2 = false.
Proof.
  intros Hprompt Hentry Hcontent.
  assert (Hfiles : imageFiles s ≠ []).
  { intros H. rewrite H in Hentry. by apply elem_of_nil in Hentry. }
  rewrite (handleSubmit_proceeds ai s Hfiles Hprompt).
  destruct (promiseAll _) as [imageParts|err] eqn:Hall.
  - exfalso. apply promiseAll_Resolved in Hall.
    apply list_elem_of_lookup in Hentry as [i Hi].
    assert (Hi' : map encodeEntry (imageFiles s) !! i = Some (encodeEntry entry))
      by (by rewrite list_lookup_fmap, Hi).
    rewrite Hall, list_lookup_fmap in Hi'.
    unfold encodeEntry, fileToBase64, readAsDataURL in Hi'.
    rewrite Hcontent in Hi'. destruct (imageParts !! i); discriminate.
  - apply promiseAll_Rejected, list_elem_of_fmap in Hall as (e & Heq & _).
    symmetry in Heq. apply encodeEntry_Rejected in Heq as [-> _].
    by repeat split.
Qed.

Lemma unreadable_file_aborts_submission_witness :
  (handleSubmit Samples.offline
     (setPrompt "merge"
        (ui (handleFileChange (Some [Samples.cat; Samples.torn]) initial).2))).1
  = [ConsoleError ProgressEvent].
Proof.
  destruct (unreadable_file_aborts_submission Samples.offline
              (setPrompt "merge"
                 (ui (handleFileChange (Some [Samples.cat; Samples.torn]) initial).2))
              (ImageFile.mk Samples.torn "blob:1"))
    as [Heffects _].
  - discriminate.
  - right. left.
  - reflexivity.
  - exact Heffects.
Defined.

Lemma sent_of_call ai prompt imageParts :
  sent (map Service (GeminiService.synthesizeImage ai prompt imageParts).1)
  = [GeminiService.request prompt imageParts].
Proof. by rewrite sent_service, synthesizeImage_requests. Qed.

(** The requests of a submission whose encodings resolved. *)
Lemma handleSubmit_sent ai s imageParts :
  imageFiles s ≠ [] → trim (prompt s) ≠ "" →
  promiseAll (map encodeEntry (imageFiles s)) = Resolved imageParts →
  sent (handleSubmit ai s).1 = [GeminiService.request (prompt s) imageParts].
Proof.
  intros Hfiles Hprompt Hall.
  rewrite (handleSubmit_proceeds ai s Hfiles Hprompt), Hall.
  pose proof (sent_of_call ai (prompt s) imageParts) as Hsent.
  destruct (GeminiService.synthesizeImage _ _ _) as [effects [result|err]];
    simpl in *; [exact Hsent|].
  unfold sent. rewrite omap_app. fold (sent (map Service effects)).
  rewrite Hsent. reflexivity.
Qed.

(** X15.  From the files to the wire.  When the guard is passed and every
    file can be read (and its media type has no comma), the submission sends
    exactly one request; its parts are, for each entry in the order of the
    collection, an inline-data part with the file's declared type and a
    payload whose base64 decoding is the file's content, and then one text
    part with the prompt as it was typed, untrimmed. *)
Theorem submission_sends_every_file_and_the_prompt ai s :
  imageFiles s ≠ [] → trim (prompt s) ≠ "" →
  (∀ entry, entry ∈ imageFiles s →
     ∃ bytes, File.content (ImageFile.file entry) = Readable bytes
              ∧ occurs "," (File.type (ImageFile.file entry)) = false) →
  ∃ parts,
    sent (handleSubmit ai s).1
    = [GeminiService.GenerateContentParameters.mk
         "gemini-2.5-flash-image-preview"
         (GeminiService.Content.mk (Some parts))
         [GeminiService.IMAGE; GeminiService.TEXT]]
    ∧ length parts = S (length (imageFiles s))
    ∧ (∀ (i : nat) entry bytes,
         imageFiles s !! i = Some entry →
         File.content (ImageFile.file entry) = Readable bytes →
         ∃ payload,
           parts !! i
           = Some (GeminiService.Part.mk
                     (Some (GeminiService.Blob_.mk
                              (Some (File.type (ImageFile.file entry)))
                              (Some payload)))
                     None)
           ∧ Base64.decode payload = Some bytes)
    ∧ parts !! length (imageFiles s)
      = Some (GeminiService.Part.mk None (Some (prompt s))).
Proof.
  intros Hfiles Hprompt Hreadable.
  destruct (encode_all_readable _ Hreadable) as (imageParts & Hall & Hlength & Hparts).
  exists (map GeminiService.imagePart imageParts
          ++ [GeminiService.textPart (prompt s)]).
  split; [exact (handleSubmit_sent ai s imageParts Hfiles Hprompt Hall)|].
  split; [rewrite length_app, length_map, Hlength; simpl; lia|].
  split.
  - intros i entry bytes Hi Hbytes. exists (Base64.encode bytes).
    split; [|apply decode_encode].
    rewrite lookup_app_l
      by (rewrite length_map, Hlength; by eapply lookup_lt_Some).
    by rewrite list_lookup_fmap, (Hparts i entry bytes Hi Hbytes).
  - rewrite lookup_app_r by (rewrite length_map, Hlength; lia).
    by rewrite length_map, Hlength, Nat.sub_diag.
Qed.

Lemma submission_sends_every_file_and_the_prompt_witness :
  ∃ parts,
    sent (handleSubmit Samples.offline
            (setPrompt " merge "
               (ui (handleFileChange (Some [Samples.cat; Samples.hat]) initial).2))).1
    = [GeminiService.GenerateContentParameters.mk
         "gemini-2.5-flash-image-preview"
         (GeminiService.Content.mk (Some parts))
         [GeminiService.IMAGE; GeminiService.TEXT]]
    ∧ length parts = 3
    ∧ parts !! 2 = Some (GeminiService.Part.mk None (Some " merge ")).
Proof.
  destruct (submission_sends_every_file_and_the_prompt Samples.offline
              (setPrompt " merge "
                 (ui (handleFileChange (Some [Samples.cat; Samples.hat]) initial).2)))
    as (parts & Hsent & Hlength & _ & Hlast).
  - discriminate.
  - discriminate.
  - intros entry Hentry. simpl in Hentry.
    apply elem_of_cons in Hentry as [->|Hentry]; [by eexists|].
    apply list_elem_of_singleton in Hentry as ->. by eexists.
  - exists parts. split; [exact Hsent|]. split; [exact Hlength|exact Hlast].
Defined.

Lemma handleSubmit_prompt ai s : prompt (handleSubmit ai s).2 = prompt s.
Proof.
  unfold handleSubmit.
  destruct (_ || _)%bool; [reflexivity|].
  destruct (promiseAll _) as [imageParts|err]; [|reflexivity].
  destruct (GeminiService.synthesizeImage _ _ _) as [effects [result|err]];
    reflexivity.
Qed.

(** X16.  A submission leaves the intake alone and calls the service at
    most once: the collection and the prompt are what they were, no object
    URL is created or revoked, and at most one request is sent (none when the
    guard stops the submission or a read fails, never a second one). *)
Theorem submission_leaves_the_intake_alone ai s :
  imageFiles (handleSubmit ai s).2 = imageFiles s
  ∧ prompt (handleSubmit ai s).2 = prompt s
  ∧ created (handleSubmit ai s).1 = []
  ∧ revoked (handleSubmit ai s).1 = []
  ∧ (length (sent (handleSubmit ai s).1) ≤ 1)%nat.
Proof.
  split; [apply handleSubmit_imageFiles|]. split; [apply handleSubmit_prompt|].
  destruct (handleSubmit_no_urls ai s) as [Hcreated Hrevoked].
  split; [exact Hcreated|]. split; [exact Hrevoked|].
  unfold handleSubmit.
  destruct (_ || _)%bool; [simpl; lia|].
  destruct (promiseAll _) as [imageParts|err]; [|simpl; lia].
  pose proof (sent_of_call ai (prompt s) imageParts) as Hsent.
  destruct (GeminiService.synthesizeImage _ _ _) as [effects [result|err]];
    simpl in *.
  - by rewrite Hsent.
  - unfold sent. rewrite omap_app. fold (sent (map Service effects)).
    by rewrite Hsent.
Qed.

(** X17.  With readable files, the only error a submission that passed the
    guard can show is the fixed prefix followed by the service's generic
    message: whatever made the service fail (the transport, a malformed
    response, no content) is on the console only. *)
Theorem service_failures_show_the_generic_message ai s shown :
  imageFiles s ≠ [] → trim (prompt s) ≠ "" →
  (∀ entry, entry ∈ imageFiles s →
     File.content (ImageFile.file entry) ≠ Unreadable) →
  error (handleSubmit ai s).2 = Some shown →
  shown = "이미지 생성 중 오류가 발생했습니다: " +:+ GeminiService.failureMessage
  ∧ ∃ effects cause,
      (handleSubmit ai s).1
      = effects
        ++ [Service (GeminiService.ConsoleError "Error calling Gemini API:" cause);
            ConsoleError (Error GeminiService.failureMessage)].
Proof.
  intros Hfiles Hprompt Hreadable.
  rewrite (handleSubmit_proceeds ai s Hfiles Hprompt).
  destruct (promiseAll _) as [imageParts|err] eqn:Hall.
  - destruct (synthesizeImage_cases
                ai (prompt s) imageParts)
      as [(result & ->)|(cause & ->)]; simpl; [discriminate|].
    intros Hshown. inversion Hshown. split; [reflexivity|].
    exists [Service (GeminiService.GenerateContent
                       (GeminiService.request (prompt s) imageParts))], cause.
    reflexivity.
  - exfalso.
    apply promiseAll_Rejected, list_elem_of_fmap in Hall as (entry & Heq & Hin).
    symmetry in Heq. apply encodeEntry_Rejected in Heq as [_ Hcontent].
    exact (Hreadable entry Hin Hcontent).
Qed.

Lemma service_failures_show_the_generic_message_witness :
  "이미지 생성 중 오류가 발생했습니다: Failed to synthesize image. Please check the console for more details."
  = "이미지 생성 중 오류가 발생했습니다: " +:+ GeminiService.failureMessage.
Proof.
  apply (service_failures_show_the_generic_message Samples.offline
           (setPrompt "merge"
              (ui (handleFileChange (Some [Samples.cat]) initial).2))).
  - discriminate.
  - discriminate.
  - intros entry Hentry. simpl in Hentry.
    apply list_elem_of_singleton in Hentry as ->. discriminate.
  - reflexivity.
Defined.

End Submission.
